(** * remove_reads_genome_transcriptome: a shallow embedding

    The script reads two Bowtie MAP files.  From the first one it builds, in
    bounded batches, dictionaries from read name to mismatch count
    ([map2dict]); against each batch it streams the second file (or what an
    earlier pass left undecided) and routes every line to the final output,
    to a new temporary file, or nowhere.  What is left after the last batch
    is appended to the final output.

    Lines are Python [str] values, modelled as [string]; a file is the list
    of its lines (each with its line terminator); dictionaries are [gmap]s
    keyed by read name. *)

From Stdlib Require Import ZArith Ascii String List Bool Lia.
From stdpp Require Import base option list strings gmap fin_maps sorting.

Local Open Scope string_scope.
Local Open Scope Z_scope.
Local Open Scope list_scope.

(** ** Python string and list primitives used by the script *)

Module Py.

Definition TAB : ascii := ascii_of_nat 9.
Definition LF : ascii := ascii_of_nat 10.
Definition CR : ascii := ascii_of_nat 13.
Definition COLON : ascii := ascii_of_nat 58.

(** [c in chars], for the character sets handed to [rstrip]. *)
Fixpoint mem (c : ascii) (chars : string) : bool :=
  match chars with
  | EmptyString => false
  | String d chars' => if Ascii.eqb c d then true else mem c chars'
  end.

Definition is_empty (s : string) : bool :=
  match s with EmptyString => true | String _ _ => false end.

(** [s.rstrip(chars)]: drop the longest suffix made of characters of
    [chars]. *)
Fixpoint rstrip (chars : string) (s : string) : string :=
  match s with
  | EmptyString => EmptyString
  | String c s' =>
      let r := rstrip chars s' in
      if is_empty r && mem c chars then EmptyString else String c r
  end.

(** [s.split(sep)] for a one-character separator: never the empty list,
    empty fields are kept. *)
Fixpoint split (sep : ascii) (s : string) : list string :=
  match s with
  | EmptyString => [EmptyString]
  | String c s' =>
      if Ascii.eqb c sep then EmptyString :: split sep s'
      else match split sep s' with
           | f :: fs => String c f :: fs
           | [] => [String c EmptyString]
           end
  end.

(** [s.count(c)] for a one-character pattern. *)
Fixpoint count (c : ascii) (s : string) : nat :=
  match s with
  | EmptyString => O
  | String d s' => if Ascii.eqb d c then S (count c s') else count c s'
  end.

(** [h[i]] on a list: negative indices count from the end, anything out
    of range raises [IndexError] (here [None]). *)
Definition index {A} (h : list A) (i : Z) : option A :=
  let n := Z.of_nat (length h) in
  if (0 <=? i) && (i <? n) then h !! Z.to_nat i
  else if (- n <=? i) && (i <? 0) then h !! Z.to_nat (n + i)
  else None.

(** [len(s)] *)
Fixpoint len (s : string) : Z :=
  match s with
  | EmptyString => 0
  | String _ s' => 1 + len s'
  end.

End Py.

(** The exceptions that can end a run. *)
Inductive exn := IOError | OSError | IndexError | SystemExit.

Inductive result (A : Type) :=
| Ok (a : A)
| Raise (e : exn).
Arguments Ok {A} a.
Arguments Raise {A} e.

#[global] Instance result_ret : MRet result := fun A a => Ok a.
#[global] Instance result_bind : MBind result := fun A B k r =>
  match r with
  | Ok a => k a
  | Raise e => Raise e
  end.

Definition of_option {A} (e : exn) (o : option A) : result A :=
  match o with
  | Some a => Ok a
  | None => Raise e
  end.

(** ** Records and mismatch counts *)

Definition line := string.

(** [line.rstrip('\r\n').split('\t')] *)
Definition fields (l : line) : list string :=
  Py.split Py.TAB (Py.rstrip (String Py.CR (String Py.LF EmptyString)) l).

(** [r[0]]: [split] never returns the empty list. *)
Definition read_name (l : line) : string :=
  match fields l with
  | f :: _ => f
  | [] => EmptyString
  end.

(** [0 if not f else f.count(':')] *)
Definition mismatches (f : string) : nat :=
  if Py.is_empty f then O else Py.count Py.COLON f.

(** [giveRC(h,col)] = [(h[0],h[col])] *)
Definition giveRC (h : list string) (col : Z) : result (string * string) :=
  h0 ← of_option IndexError (Py.index h 0);
  hc ← of_option IndexError (Py.index h col);
  Ok (h0, hc).


(** A descriptor is well formed for counting when it holds exactly one
    colon ([offset:reference-base>read-base]). *)
Definition one_colon (d : string) : bool := Nat.eqb (Py.count Py.COLON d) 1.

(** Building lines for examples: fields joined by tabs, plus a newline. *)
Fixpoint join_tab (fs : list string) : string :=
  match fs with
  | [] => EmptyString
  | [f] => f
  | f :: fs' => (f ++ String Py.TAB (join_tab fs'))%string
  end.

Definition mk_line (fs : list string) : line :=
  (join_tab fs ++ String Py.LF EmptyString)%string.

(** A MAP line with the default eight columns: only the name and the
    mismatch descriptors vary. *)
Definition map_line (name descr : string) : line :=
  mk_line [name; "+"; "chr1"; "0"; "ACGT"; "IIII"; "0"; descr].

(** ** Reading a file in chunks

    [f.readlines(sizehint)] returns whole lines until their total size
    reaches the hint (all remaining lines when the hint is not positive),
    and the empty list at end of file.  An open file is the list of the
    lines not read yet. *)

Definition hint_reached (hint n : Z) : bool := (0 <? hint) && (hint <=? n).

Fixpoint readlines_from (hint n : Z) (f : list line) : list line * list line :=
  match f with
  | [] => ([], [])
  | l :: f' =>
      let n' := n + Py.len l in
      if hint_reached hint n' then ([l], f')
      else let '(du, rest) := readlines_from hint n' f' in (l :: du, rest)
  end.

Definition readlines (hint : Z) (f : list line) : list line * list line :=
  readlines_from hint 0 f.

(** The successive non-empty results of [readlines] on one file, that is
    the values [du] (or [lines]) takes in a
    [while True: du = f.readlines(hint); if not du: break] loop. *)
Fixpoint chunks_from (hint n : Z) (f : list line) : list (list line) :=
  match f with
  | [] => []
  | l :: f' =>
      let n' := n + Py.len l in
      if hint_reached hint n' then [l] :: chunks_from hint 0 f'
      else match chunks_from hint n' f' with
           | [] => [[l]]
           | du :: dus => (l :: du) :: dus
           end
  end.

Definition chunks (hint : Z) (f : list line) : list (list line) :=
  chunks_from hint 0 f.

(** ** The Reference-Map Builder: [map2dict] *)

(** [dict(base)]: a later pair overrides an earlier one with the same key. *)
Definition dict (base : list (string * nat)) : gmap string nat :=
  fold_left (fun m p => <[p.1 := p.2]> m) base ∅.

(** What a generator of dictionaries does when it is run to its end: it
    yields, then goes on; or returns; or raises. *)
Inductive batches :=
| Stop
| Fail (e : exn)
| Yield (baza : gmap string nat) (rest : batches).

(** [[giveRC(d.rstrip('\r\n').split('\t'),column) for d in du]] *)
Fixpoint giveRC_all (column : Z) (du : list line)
  : result (list (string * string)) :=
  match du with
  | [] => Ok []
  | d :: du' =>
      p ← giveRC (fields d) column;
      ps ← giveRC_all column du';
      Ok (p :: ps)
  end.

(** The [for d in du] loop: a pair is appended to [di] when the name
    differs from the one of the line before. *)
Fixpoint new_reads (last_read : option string) (du : list (string * string))
  : list (string * nat) * option string :=
  match du with
  | [] => ([], last_read)
  | d :: du' =>
      if decide (last_read = Some d.1) then new_reads last_read du'
      else let '(di, last) := new_reads (Some d.1) du' in
           ((d.1, mismatches d.2) :: di, last)
  end.

Fixpoint map2dict_loop (column limit_counts_reads : Z)
    (dus : list (list line)) (last_read : option string)
    (base : list (string * nat)) : batches :=
  match dus with
  | [] =>
      match base with
      | [] => Stop
      | _ :: _ => Yield (dict base) Stop
      end
  | du :: dus' =>
      match giveRC_all column du with
      | Raise e => Fail e
      | Ok du' =>
          let '(di, last_read') := new_reads last_read du' in
          let base' := base ++ di in
          if limit_counts_reads <? Z.of_nat (length base')
          then Yield (dict base')
                 (map2dict_loop column limit_counts_reads dus' last_read' [])
          else map2dict_loop column limit_counts_reads dus' last_read' base'
      end
  end.

(** [a_file] is the content of the file named by the script's argument. *)
Definition map2dict (a_file : list line) (column : Z)
    (limit_counts_reads size_buffer : Z) : batches :=
  map2dict_loop column limit_counts_reads (chunks size_buffer a_file) None [].

Definition default_limit_counts_reads : Z := 7 * 10 ^ 7.
Definition default_size_buffer : Z := 10 ^ 8.

(** The dictionaries a generator yields before it stops or fails. *)
Fixpoint yielded (bs : batches) : list (gmap string nat) :=
  match bs with
  | Stop | Fail _ => []
  | Yield baza rest => baza :: yielded rest
  end.

(** Whether the generator ends by returning. *)
Fixpoint completes (bs : batches) : bool :=
  match bs with
  | Stop => true
  | Fail _ => false
  | Yield _ rest => completes rest
  end.

(** ** The Batch Filter Pass *)

(** The three variables the script keeps across lines, chunks and
    batches. *)
Record pstate := PState {
  lastread : option string;
  lastappended : bool;
  lastfinal : bool
}.

Definition init_pstate : pstate := PState None false false.

(** Where a line goes: [data_final], [data], or neither. *)
Inductive dest := ToFinal | ToResidue | Dropped.

#[global] Instance dest_eq_dec : EqDecision dest.
Proof. solve_decision. Defined.

(** The body of [for line in lines]. *)
Definition step (baza : gmap string nat) (mc : Z) (st : pstate) (l : line)
  : result (pstate * dest) :=
  let r := fields l in
  rr ← of_option IndexError (Py.index r 0);
  if decide (lastread st = Some rr) then
    if negb (lastappended st) then Ok (st, Dropped)
    else if lastfinal st then Ok (st, ToFinal)
    else Ok (st, ToResidue)
  else
    match baza !! rr with
    | Some ref =>
        f ← of_option IndexError (Py.index r mc);
        let m := mismatches f in
        if (m <=? ref)%nat then Ok (PState (Some rr) true true, ToFinal)
        else Ok (PState (Some rr) false (lastfinal st), Dropped)
    | None => Ok (PState (Some rr) true false, ToResidue)
    end.

(** [data.append(line)] / [data_final.append(line)] *)
Definition route (d : dest) (l : line) (bufs : list line * list line)
  : list line * list line :=
  match d with
  | ToResidue => (l :: bufs.1, bufs.2)
  | ToFinal => (bufs.1, l :: bufs.2)
  | Dropped => bufs
  end.

(** One chunk: the state after it and the two buffers [(data, data_final)]
    in the order the lines were appended. *)
Fixpoint for_lines (baza : gmap string nat) (mc : Z) (st : pstate)
    (lines : list line) : result (pstate * (list line * list line)) :=
  match lines with
  | [] => Ok (st, ([], []))
  | l :: lines' =>
      '(st1, d) ← step baza mc st l;
      '(st2, bufs) ← for_lines baza mc st1 lines';
      Ok (st2, route d l bufs)
  end.

(** One pass over a source read chunk by chunk: the state after it, what
    was written to [fout] and what was written to [final]. *)
Fixpoint pass_chunks (baza : gmap string nat) (mc : Z) (st : pstate)
    (chs : list (list line)) : result (pstate * (list line * list line)) :=
  match chs with
  | [] => Ok (st, ([], []))
  | lines :: chs' =>
      '(st1, (data, data_final)) ← for_lines baza mc st lines;
      '(st2, (fout, final)) ← pass_chunks baza mc st1 chs';
      Ok (st2, (data ++ fout, data_final ++ final))
  end.

Definition default_lines_hint : Z := 10 ^ 8.

(** ** The driver loop, on file contents

    [in1] is the content of the file the next pass reads: first the second
    input, then what the pass before wrote to its [fout].  The three state
    variables are initialised once, before the loop, and are carried from
    one pass into the next. *)

Record pass_rec := PassRec {
  p_baza : gmap string nat;
  p_start : pstate;
  p_source : list line;
  p_fout : list line;
  p_final : list line
}.

Fixpoint passes (mc hint : Z) (bs : batches) (st : pstate) (in1 : list line)
  : result (list pass_rec * list line) :=
  match bs with
  | Stop => Ok ([], in1)
  | Fail e => Raise e
  | Yield baza rest =>
      '(st', (fout, final)) ← pass_chunks baza mc st (chunks hint in1);
      '(ps, last) ← passes mc hint rest st' fout;
      Ok (PassRec baza st in1 fout final :: ps, last)
  end.

(** What the output file holds at the end: what each pass wrote to
    [final], then the copy of the last [in1]. *)
Definition assemble (hint : Z) (ps : list pass_rec) (last : list line)
  : list line :=
  concat (p_final <$> ps) ++ concat (chunks hint last).

(** The passes of a run on the contents of the two input files. *)
Definition trace_with (limit_counts_reads size_buffer hint : Z)
    (mismatches_column : Z) (map_1 map_2 : list line)
  : result (list pass_rec * list line) :=
  let mc := mismatches_column - 1 in
  passes mc hint (map2dict map_1 mc limit_counts_reads size_buffer)
    init_pstate map_2.

Definition run_with (limit_counts_reads size_buffer hint : Z)
    (mismatches_column : Z) (map_1 map_2 : list line) : result (list line) :=
  '(ps, last) ← trace_with limit_counts_reads size_buffer hint
                  mismatches_column map_1 map_2;
  Ok (assemble hint ps last).


(** ** The script, on a file system

    A file system maps names to contents.  The content of a file is taken
    when it is opened for reading; [open(name,'w')] creates or empties it;
    directories are not modelled.  [temps] and [removed] record the names
    [give_me_temp_filename] returned and the names given to [os.remove]. *)

Record world := World {
  files : gmap string (list line);
  temps : list string;
  removed : list string
}.

Record options := Options {
  map_1_filename : option string;
  map_2_filename : option string;
  mismatches_column : Z;
  output_filename : option string;
  tmp_dir : option string
}.

(** Truth value of an option that is [None] or a string. *)
Definition truthy (o : option string) : bool :=
  match o with
  | Some s => negb (Py.is_empty s)
  | None => false
  end.

Definition open_r (name : string) (w : world) : result (list line) :=
  of_option IOError (files w !! name).

Definition open_w (name : string) (w : world) : world :=
  World (<[name := []]> (files w)) (temps w) (removed w).

Definition writelines (name : string) (ls : list line) (w : world) : world :=
  World (alter (fun c => c ++ ls) name (files w)) (temps w) (removed w).

Definition os_remove (name : string) (w : world) : result world :=
  match files w !! name with
  | Some _ => Ok (World (delete name (files w)) (temps w) (removed w ++ [name]))
  | None => Raise OSError
  end.

(** The code after the loop: the placeholder [ou1] is removed, the last
    [in1] is copied to the output, and removed unless it is the second
    input. *)
Definition after_loop (hint : Z) (out : string) (first_flag : bool)
    (in1 ou1 : string) (w : world) : result world :=
  w ← os_remove ou1 w;
  lines ← open_r in1 w;
  let w := writelines out (concat (chunks hint lines)) w in
  if negb first_flag then os_remove in1 w else Ok w.

Section Script.

(** [tempfile.mkstemp] picks a name that no existing file has. *)
Variable mkstemp : gset string -> string.

Definition give_me_temp_filename (tmp : option string) (w : world)
  : string * world :=
  let ft_name := mkstemp (dom (files w)) in
  (ft_name,
   World (<[ft_name := []]> (files w)) (temps w ++ [ft_name]) (removed w)).

(** The [for baza in map2dict(...)] loop; it returns the variables the
    code after the loop reads. *)
Fixpoint driver_loop (tmp : option string) (mc hint : Z) (out : string)
    (bs : batches) (st : pstate) (first_flag : bool) (in1 ou1 : string)
    (w : world) : result (bool * string * string * world) :=
  match bs with
  | Stop => Ok (first_flag, in1, ou1, w)
  | Fail e => Raise e
  | Yield baza rest =>
      lines ← open_r in1 w;
      let w := open_w ou1 w in
      '(st', (fout, final)) ← pass_chunks baza mc st (chunks hint lines);
      let w := writelines ou1 fout w in
      let w := writelines out final w in
      w ← (if first_flag then Ok w else os_remove in1 w);
      let in1 := ou1 in
      let '(ou1, w) := give_me_temp_filename tmp w in
      driver_loop tmp mc hint out rest st' false in1 ou1 w
  end.

Definition main_with (limit_counts_reads size_buffer hint : Z)
    (o : options) (w : world) : result world :=
  if negb (truthy (map_1_filename o) && truthy (map_2_filename o)
           && truthy (output_filename o))
  then Raise SystemExit
  else
    match map_1_filename o, map_2_filename o, output_filename o with
    | Some map_1, Some map_2, Some out =>
        let mc := mismatches_column o - 1 in
        let in1 := map_2 in
        let '(ou1, w) := give_me_temp_filename (tmp_dir o) w in
        let w := open_w out w in
        a_file ← open_r map_1 w;
        '(first_flag, in1, ou1, w) ←
          driver_loop (tmp_dir o) mc hint out
            (map2dict a_file mc limit_counts_reads size_buffer)
            init_pstate true in1 ou1 w;
        after_loop hint out first_flag in1 ou1 w
    | _, _, _ => Raise SystemExit
    end.

Definition main : options -> world -> result world :=
  main_with default_limit_counts_reads default_size_buffer
    default_lines_hint.

End Script.

Arguments give_me_temp_filename : simpl never.
Arguments os_remove : simpl never.
Arguments open_w : simpl never.
Arguments writelines : simpl never.

(** ** Vocabulary of the properties *)

Definition names (f : list line) : list string := read_name <$> f.

Definition named (n : string) (l : line) : Prop := read_name l = n.

#[global] Instance named_dec n l : Decision (named n l).
Proof. unfold named. apply _. Defined.

(** All records of a read name are consecutive. *)
Definition contiguity (ns : list string) : Prop :=
  forall (i j k : nat) (n : string),
    (i <= j <= k)%nat -> ns !! i = Some n -> ns !! k = Some n ->
    ns !! j = Some n.

(** The same, by recursion on the list: a name is followed by itself or
    never comes back. *)
Fixpoint contiguous (ns : list string) : Prop :=
  match ns with
  | [] => True
  | n :: ns' => (head ns' = Some n \/ n ∉ ns') /\ contiguous ns'
  end.

#[global] Instance contiguous_dec ns : Decision (contiguous ns).
Proof. induction ns as [|n ns IH]; simpl; apply _. Defined.

(** The line has the field at index [mc]. *)
Definition has_field (mc : Z) (l : line) : Prop :=
  is_Some (Py.index (fields l) mc).

#[global] Instance has_field_dec mc l : Decision (has_field mc l).
Proof. unfold has_field. apply _. Defined.

(** The mismatch count of the first record of a file that bears the name
    [n]; [None] when there is no such record or it lacks the field. *)
Definition first_mismatches (mc : Z) (f : list line) (n : string)
  : option nat :=
  l ← head (filter (named n) f);
  fld ← Py.index (fields l) mc;
  Some (mismatches fld).

(** The destination the carried flags stand for. *)
Definition dest_of (st : pstate) : dest :=
  if negb (lastappended st) then Dropped
  else if lastfinal st then ToFinal
  else ToResidue.

(** The buffers [(data, data_final)] when all of [ls] goes one way. *)
Definition route_all (d : dest) (ls : list line) : list line * list line :=
  match d with
  | ToResidue => (ls, [])
  | ToFinal => ([], ls)
  | Dropped => ([], [])
  end.

(** The names that differ from the name before them, [last_read] being
    the name before the first. *)
Fixpoint heads (last_read : option string) (ns : list string) : list string :=
  match ns with
  | [] => []
  | n :: ns' =>
      if decide (last_read = Some n) then heads last_read ns'
      else n :: heads (Some n) ns'
  end.

(** The name [last_read] holds after the names [ns] went by. *)
Fixpoint last_name (last_read : option string) (ns : list string)
  : option string :=
  match ns with
  | [] => last_read
  | n :: ns' => last_name (Some n) ns'
  end.

(** The carried read name, when the source of a pass opens with a line
    of that read: those lines are not looked up in the dictionary. *)
Definition carried (st : pstate) (src : list line) : option string :=
  match src with
  | [] => None
  | l :: _ =>
      if decide (lastread st = Some (read_name l)) then Some (read_name l)
      else None
  end.

(** The name of the line is not a key of the dictionary. *)
Definition undecided (baza : gmap string nat) (l : line) : Prop :=
  baza !! read_name l = None.

#[global] Instance undecided_dec baza l : Decision (undecided baza l).
Proof. unfold undecided. apply _. Defined.

(** The keep rule: the dictionary holds the name of the line with a count
    that is at least the mismatch count of the first record of that name
    in [src]. *)
Definition kept (baza : gmap string nat) (mc : Z) (src : list line)
    (l : line) : Prop :=
  match baza !! read_name l, first_mismatches mc src (read_name l) with
  | Some ref, Some m => (m <= ref)%nat
  | _, _ => False
  end.

#[global] Instance kept_dec baza mc src l : Decision (kept baza mc src l).
Proof.
  unfold kept. destruct (baza !! read_name l);
    [destruct (first_mismatches mc src (read_name l))|]; apply _.
Defined.

(** Where the lines of a pass go: the lines of the carried read, if the
    source opens with them, go the way of the flags; any other line is
    looked up. *)
Definition to_residue (baza : gmap string nat) (st : pstate)
    (src : list line) (l : line) : Prop :=
  if decide (carried st src = Some (read_name l))
  then dest_of st = ToResidue
  else undecided baza l.

Definition to_final (baza : gmap string nat) (mc : Z) (st : pstate)
    (src : list line) (l : line) : Prop :=
  if decide (carried st src = Some (read_name l))
  then dest_of st = ToFinal
  else kept baza mc src l.

#[global] Instance to_residue_dec baza st src l :
  Decision (to_residue baza st src l).
Proof. unfold to_residue. case_decide; apply _. Defined.

#[global] Instance to_final_dec baza mc st src l :
  Decision (to_final baza mc st src l).
Proof. unfold to_final. case_decide; apply _. Defined.

(** A pass that opens on the lines of the carried read although its
    dictionary holds that read. *)
Definition retests_nothing (p : pass_rec) : Prop :=
  match carried (p_start p) (p_source p) with
  | Some u => is_Some (p_baza p !! u)
  | None => False
  end.

#[global] Instance retests_nothing_dec p : Decision (retests_nothing p).
Proof. unfold retests_nothing. destruct (carried _ _); apply _. Defined.

(** The records of the second file the rule of the tool keeps: those whose
    read is not in the first file, and those whose read has, in the first
    file, at least as many mismatches as in the second. *)
Definition wanted (mc : Z) (map_1 map_2 : list line) (l : line) : Prop :=
  match first_mismatches mc map_1 (read_name l) with
  | None => True
  | Some ref =>
      match first_mismatches mc map_2 (read_name l) with
      | Some m => (m <= ref)%nat
      | None => False
      end
  end.

#[global] Instance wanted_dec mc map_1 map_2 l :
  Decision (wanted mc map_1 map_2 l).
Proof.
  unfold wanted. destruct (first_mismatches mc map_1 (read_name l));
    [destruct (first_mismatches mc map_2 (read_name l))|]; apply _.
Defined.

(** The count the first dictionary of a list that has the name gives. *)
Fixpoint lookup_first (bl : list (gmap string nat)) (n : string)
  : option nat :=
  match bl with
  | [] => None
  | b :: bl' =>
      match b !! n with
      | Some ref => Some ref
      | None => lookup_first bl' n
      end
  end.

(** The keep rule against a list of dictionaries. *)
Definition wanted_by (bl : list (gmap string nat)) (mc : Z)
    (src : list line) (l : line) : Prop :=
  match lookup_first bl (read_name l) with
  | None => True
  | Some ref =>
      match first_mismatches mc src (read_name l) with
      | Some m => (m <= ref)%nat
      | None => False
      end
  end.

#[global] Instance wanted_by_dec bl mc src l : Decision (wanted_by bl mc src l).
Proof.
  unfold wanted_by. destruct (lookup_first bl (read_name l));
    [destruct (first_mismatches mc src (read_name l))|]; apply _.
Defined.

(** The second input is there, no temporary file bears its name, and only
    temporary files were removed. *)
Definition spares (m2 : string) (w : world) : Prop :=
  is_Some (files w !! m2)
  /\ Forall (fun t => t <> m2) (temps w)
  /\ Forall (fun r => r ∈ temps w) (removed w).

(** What the driver loop keeps true of the files: the output holds what
    was finalised so far, [in1] holds the source of the next pass, [ou1]
    exists, the second input is as it was, and the names are apart. *)
Definition loop_inv (m2 out : string) (f2 : list line) (first_flag : bool)
    (in1 ou1 : string) (w : world) (acc src : list line) : Prop :=
  files w !! out = Some acc
  /\ files w !! in1 = Some src
  /\ is_Some (files w !! ou1)
  /\ files w !! m2 = Some f2
  /\ in1 <> out /\ ou1 <> out /\ in1 <> ou1 /\ ou1 <> m2
  /\ (first_flag = false -> in1 <> m2).

(** The exception a generator ends with, if it fails. *)
Fixpoint failure (bs : batches) : option exn :=
  match bs with
  | Stop => None
  | Fail e => Some e
  | Yield _ rest => failure rest
  end.



(** The lines that open a group of records: those whose name differs from
    the name of the line before, [last_read] being the name before the
    first line. *)
Fixpoint group_heads (last_read : option string) (f : list line)
  : list line :=
  match f with
  | [] => []
  | l :: f' =>
      if decide (last_read = Some (read_name l)) then group_heads last_read f'
      else l :: group_heads (Some (read_name l)) f'
  end.

(** The mismatch count of the record that opens the last group of the
    name [n] in a file. *)
Definition last_group_mismatches (mc : Z) (f : list line) (n : string)
  : option nat :=
  l ← last (filter (named n) (group_heads None f));
  fld ← Py.index (fields l) mc;
  Some (mismatches fld).

(** ** Example inputs *)

Module Ex.

Definition a0 : line := map_line "a" EmptyString.
Definition b0 : line := map_line "b" EmptyString.
Definition c0 : line := map_line "c" EmptyString.
Definition x0 : line := map_line "x" EmptyString.
Definition x1 : line := map_line "x" "1:A>T".
Definition z0 : line := map_line "z" EmptyString.

(** The example of the tool's description: r1 is worse in the second
    file, r2 is as good, r3 is not in the first file. *)
Definition r1_ref : line := map_line "r1" "5:A>T".
Definition r2_ref : line := map_line "r2" EmptyString.
Definition r1 : line := map_line "r1" "3:A>T,9:C>G".
Definition r1' : line :=
  mk_line ["r1"; "-"; "chr2"; "7"; "ACGT"; "IIII"; "0"; "3:A>T,9:C>G"].
Definition r2 : line := map_line "r2" EmptyString.
Definition r3 : line := map_line "r3" "1:A>C".
Definition r3' : line :=
  mk_line ["r3"; "-"; "chr2"; "7"; "ACGT"; "IIII"; "0"; "1:A>C"].

(** A line that stops before the mismatch column. *)
Definition short : line := mk_line ["s"; "+"; "chr1"].

(** A second alignment of the same read, elsewhere. *)
Definition again (name descr : string) : line :=
  mk_line [name; "-"; "chr2"; "7"; "ACGT"; "IIII"; "0"; descr].

(** A first file whose reads a and c have two records each; read in chunks
    of two lines, the records of c lie on both sides of a chunk boundary. *)
Definition genome : list line :=
  [map_line "a" "2:A>C"; again "a" "2:A>C"; b0; c0; again "c" EmptyString].

(** A file system with the two inputs, and the options naming them. *)
Definition fs0 : gmap string (list line) :=
  <["genome.map" := [a0; x0]]> (<["transcriptome.map" := [x1; z0]]> ∅).

Definition opts : options :=
  Options (Some "genome.map") (Some "transcriptome.map") 8
    (Some "out.map") None.

(** The same with an empty first file. *)
Definition fs_empty : gmap string (list line) :=
  <["genome.map" := []]> (<["transcriptome.map" := [x1; z0]]> ∅).

(** A [mkstemp]: the first name no file has. *)
Definition first_free (X : gset string) : string := fresh X.

End Ex.

(** * Properties *)

(** Closed decidable facts are settled by evaluation. *)
Ltac by_compute :=
  match goal with
  | |- ?P => apply (bool_decide_unpack P); vm_compute; exact I
  end.

(** ** Strings and fields *)

Lemma split_not_nil sep s : Py.split sep s <> [].
Proof.
  destruct s as [|c s]; simpl; [done|].
  destruct (Ascii.eqb c sep); [done|]. by destruct (Py.split sep s).
Qed.

Lemma index_0 {A} (x : A) (h : list A) : Py.index (x :: h) 0 = Some x.
Proof.
  unfold Py.index. simpl length.
  replace (0 <=? 0) with true by done.
  replace (0 <? Z.of_nat (S (length h))) with true; [done|].
  symmetry. apply Z.ltb_lt. lia.
Qed.

Lemma index_fields_0 l : Py.index (fields l) 0 = Some (read_name l).
Proof.
  unfold read_name. destruct (fields l) as [|f fs] eqn:E.
  - by apply split_not_nil in E.
  - apply index_0.
Qed.

Lemma giveRC_fields l col :
  giveRC (fields l) col
  = match Py.index (fields l) col with
    | Some f => Ok (read_name l, f)
    | None => Raise IndexError
    end.
Proof.
  unfold giveRC. rewrite index_fields_0. simpl.
  by destruct (Py.index (fields l) col).
Qed.



(** ** Chunks *)

Lemma concat_chunks_from hint n f : concat (chunks_from hint n f) = f.
Proof.
  revert n. induction f as [|l f IH]; intros n; simpl; [done|].
  destruct (hint_reached hint (n + Py.len l)); simpl.
  - by rewrite IH.
  - specialize (IH (n + Py.len l)).
    destruct (chunks_from hint (n + Py.len l) f) as [|du dus]; simpl in *.
    + by subst.
    + by rewrite IH.
Qed.

Lemma concat_chunks hint f : concat (chunks hint f) = f.
Proof. apply concat_chunks_from. Qed.

Lemma chunks_from_not_nil hint n f :
  Forall (fun du => du <> []) (chunks_from hint n f).
Proof.
  revert n. induction f as [|l f IH]; intros n; simpl; [constructor|].
  destruct (hint_reached hint (n + Py.len l)).
  - constructor; [done|apply IH].
  - specialize (IH (n + Py.len l)).
    destruct (chunks_from hint (n + Py.len l) f) as [|du dus].
    + by repeat constructor.
    + inversion IH; subst. by constructor.
Qed.

(** The chunks are what successive calls of [readlines] return. *)
Lemma chunks_from_readlines hint n f :
  chunks_from hint n f
  = match readlines_from hint n f with
    | ([], _) => []
    | (du, rest) => du :: chunks hint rest
    end.
Proof.
  revert n. induction f as [|l f IH]; intros n; simpl; [done|].
  destruct (hint_reached hint (n + Py.len l)); [done|].
  rewrite IH.
  destruct (readlines_from hint (n + Py.len l) f) as [du rest] eqn:E.
  destruct du as [|d du]; [|done].
  destruct f as [|l' f]; simpl in E; [by inversion E|].
  destruct (hint_reached hint (n + Py.len l + Py.len l')); [done|].
  by destruct (readlines_from hint (n + Py.len l + Py.len l') f).
Qed.

(** ** One line, one chunk, one pass *)

Lemma bind_Ok {A B} (r : result A) (k : A -> result B) (b : B) :
  r ≫= k = Ok b -> exists a, r = Ok a /\ k a = Ok b.
Proof. destruct r as [a|e]; simpl; [eauto|done]. Qed.

Lemma bind_Raise {A B} (r : result A) (k : A -> result B) (e : exn) :
  r ≫= k = Raise e -> r = Raise e \/ exists a, r = Ok a /\ k a = Raise e.
Proof. destruct r as [a|e']; simpl; [eauto|]. intros [= ->]. by left. Qed.

Ltac inv_bind H :=
  let a := fresh "a" in
  let Ha := fresh "Ha" in
  apply bind_Ok in H; destruct H as (a & Ha & H).

Tactic Notation "bind_inv" hyp(H) "as" simple_intropattern(a) ident(Ha) :=
  apply bind_Ok in H; destruct H as (a & Ha & H).

(** The body of the line loop, with the name read once. *)
Lemma step_eq baza mc st l :
  step baza mc st l
  = if decide (lastread st = Some (read_name l)) then Ok (st, dest_of st)
    else match baza !! read_name l with
         | None => Ok (PState (Some (read_name l)) true false, ToResidue)
         | Some ref =>
             match Py.index (fields l) mc with
             | None => Raise IndexError
             | Some f =>
                 if (mismatches f <=? ref)%nat
                 then Ok (PState (Some (read_name l)) true true, ToFinal)
                 else Ok (PState (Some (read_name l)) false (lastfinal st),
                          Dropped)
             end
         end.
Proof.
  unfold step. rewrite index_fields_0. simpl.
  destruct (decide (lastread st = Some (read_name l))).
  - unfold dest_of. destruct (lastappended st), (lastfinal st); done.
  - destruct (baza !! read_name l); [|done].
    destruct (Py.index (fields l) mc); done.
Qed.

(** After a line, the carried name is the line's and the flags stand for
    the way the line went. *)
Lemma step_dest baza mc st l st1 d :
  step baza mc st l = Ok (st1, d) ->
  lastread st1 = Some (read_name l) /\ dest_of st1 = d.
Proof.
  rewrite step_eq. destruct (decide (lastread st = Some (read_name l))).
  { intros [= <- <-]. done. }
  destruct (baza !! read_name l); [|by intros [= <- <-]].
  destruct (Py.index (fields l) mc) as [f|]; [|done].
  by destruct (_ <=? _)%nat; intros [= <- <-].
Qed.

Lemma step_carried baza mc st l :
  lastread st = Some (read_name l) ->
  step baza mc st l = Ok (st, dest_of st).
Proof. intros H. rewrite step_eq. by rewrite decide_True. Qed.

Lemma for_lines_cons baza mc st l ls st2 bufs :
  for_lines baza mc st (l :: ls) = Ok (st2, bufs) ->
  exists st1 d bufs',
    step baza mc st l = Ok (st1, d)
    /\ for_lines baza mc st1 ls = Ok (st2, bufs')
    /\ bufs = route d l bufs'.
Proof.
  simpl. intros H. inv_bind H. destruct a as [st1 d].
  inv_bind H. destruct a as [st2' bufs']. injection H as <- <-. eauto 6.
Qed.

Lemma for_lines_app baza mc st ls1 ls2 :
  for_lines baza mc st (ls1 ++ ls2)
  = '(st1, (data1, final1)) ← for_lines baza mc st ls1;
    '(st2, (data2, final2)) ← for_lines baza mc st1 ls2;
    Ok (st2, (data1 ++ data2, final1 ++ final2)).
Proof.
  revert st. induction ls1 as [|l ls1 IH]; intros st; simpl.
  - destruct (for_lines baza mc st ls2) as [[st2 [d2 f2]]|]; done.
  - destruct (step baza mc st l) as [[st1 d]|]; simpl; [|done].
    rewrite IH.
    destruct (for_lines baza mc st1 ls1) as [[st1' [d1 f1]]|]; simpl; [|done].
    by destruct d, (for_lines baza mc st1' ls2) as [[st2 [d2 f2]]|].
Qed.

(** Reading the source in chunks does not change a pass. *)
Lemma pass_chunks_concat baza mc st chs :
  pass_chunks baza mc st chs = for_lines baza mc st (concat chs).
Proof.
  revert st. induction chs as [|ls chs IH]; intros st; simpl; [done|].
  rewrite for_lines_app.
  destruct (for_lines baza mc st ls) as [[st1 [d1 f1]]|]; simpl; [|done].
  rewrite IH. by destruct (for_lines baza mc st1 (concat chs)) as [[? [? ?]]|].
Qed.

Lemma pass_chunks_lines baza mc st hint src :
  pass_chunks baza mc st (chunks hint src) = for_lines baza mc st src.
Proof. by rewrite pass_chunks_concat, concat_chunks. Qed.

(** Lines that bear the carried name go the way of the flags, and leave
    the state as it is: no field of theirs is read. *)
Lemma for_lines_carried baza mc st n blk :
  lastread st = Some n -> Forall (named n) blk ->
  for_lines baza mc st blk = Ok (st, route_all (dest_of st) blk).
Proof.
  intros Hst. induction 1 as [|l blk Hl _ IH]; simpl.
  - by destruct (dest_of st).
  - rewrite step_carried by (by rewrite Hl). simpl. rewrite IH. simpl.
    by destruct (dest_of st).
Qed.

Lemma for_lines_Raise baza mc st ls e :
  for_lines baza mc st ls = Raise e ->
  e = IndexError
  /\ exists l, l ∈ ls /\ is_Some (baza !! read_name l) /\ ~ has_field mc l.
Proof.
  revert st. induction ls as [|l ls IH]; intros st; simpl; [done|].
  intros H. apply bind_Raise in H as [H|([st1 d] & Hs & H)].
  - rewrite step_eq in H.
    destruct (decide (lastread st = Some (read_name l))); [done|].
    destruct (baza !! read_name l) as [ref|] eqn:Hb; [|done].
    destruct (Py.index (fields l) mc) as [f|] eqn:Hf.
    { by destruct (mismatches f <=? ref)%nat. }
    injection H as <-. split; [done|]. exists l. split; [left|].
    split; [by rewrite Hb|]. unfold has_field. rewrite Hf. by intros [? ?].
  - apply bind_Raise in H as [H|([st2 bufs] & _ & H)]; [|done].
    apply IH in H as (-> & l' & Hin & Hb & Hf). split; [done|].
    exists l'. split; [by right|done].
Qed.

(** ** Contiguity *)

Lemma contiguity_tail n ns : contiguity (n :: ns) -> contiguity ns.
Proof.
  intros H i j k m Hijk Hi Hk.
  apply (H (S i) (S j) (S k) m); [lia|done..].
Qed.

Lemma contiguity_contiguous ns : contiguity ns -> contiguous ns.
Proof.
  induction ns as [|n ns IH]; intros H; simpl; [done|].
  split; [|by apply IH, (contiguity_tail n)].
  destruct (decide (n ∈ ns)) as [Hin|]; [left|by right].
  apply list_elem_of_lookup in Hin as [k Hk].
  rewrite head_lookup.
  apply (H O 1%nat (S k) n); [lia|done..].
Qed.

Lemma contiguous_contiguity ns : contiguous ns -> contiguity ns.
Proof.
  induction ns as [|n ns IH].
  { intros _ i j k m _ Hi _. by rewrite lookup_nil in Hi. }
  intros [Hn Hns] i j k m Hijk Hi Hk.
  specialize (IH Hns).
  destruct i as [|i].
  - injection Hi as ->.
    destruct j as [|j]; [done|]. destruct k as [|k]; [lia|]. simpl in *.
    destruct Hn as [Hn|Hn].
    + rewrite head_lookup in Hn.
      apply (IH O j k m); [lia|done..].
    + exfalso. apply Hn. by apply list_elem_of_lookup_2 in Hk.
  - destruct j as [|j]; [lia|]. destruct k as [|k]; [lia|]. simpl in *.
    apply (IH i j k m); [lia|done..].
Qed.

Lemma contiguous_sublist_strong (l1 l2 : list string) :
  l1 `sublist_of` l2 -> contiguous l2 ->
  contiguous l1
  /\ forall x, head l2 = Some x -> x ∈ l1 -> head l1 = Some x.
Proof.
  induction 1 as [|x l1 l2 Hsub IH|x l1 l2 Hsub IH]; simpl.
  - intros _. split; [done|]. intros x _ Hx. by apply elem_of_nil in Hx.
  - intros [Hx Hl2]. destruct (IH Hl2) as [Hl1 Hhd].
    split; [split; [|done]|by intros ? [= ->]].
    destruct (decide (x ∈ l1)) as [Hin|]; [left|by right].
    destruct Hx as [Hx|Hx]; [by apply Hhd|].
    exfalso. apply Hx. by eapply elem_of_sublist.
  - intros [Hx Hl2]. destruct (IH Hl2) as [Hl1 Hhd].
    split; [done|]. intros y [= ->] Hin.
    destruct Hx as [Hx|Hx]; [by apply Hhd|].
    exfalso. apply Hx. by eapply elem_of_sublist.
Qed.

Lemma contiguous_sublist (l1 l2 : list string) :
  l1 `sublist_of` l2 -> contiguous l2 -> contiguous l1.
Proof. intros H1 H2. by apply (contiguous_sublist_strong l1 l2). Qed.

Lemma names_sublist (f1 f2 : list line) :
  f1 `sublist_of` f2 -> names f1 `sublist_of` names f2.
Proof. intros H. unfold names. by apply fmap_sublist. Qed.

(** ** The names [map2dict] records *)

Lemma heads_elem_of lr ns x : x ∈ heads lr ns -> x ∈ ns.
Proof.
  revert lr. induction ns as [|n ns IH]; intros lr; simpl; [done|].
  destruct (decide (lr = Some n)).
  - intros H. right. by eapply IH.
  - intros [->|H]%elem_of_cons; [left|right; by eapply IH].
Qed.

Lemma elem_of_heads lr ns x : x ∈ ns -> lr <> Some x -> x ∈ heads lr ns.
Proof.
  revert lr. induction ns as [|n ns IH]; intros lr; simpl.
  { intros H. by apply elem_of_nil in H. }
  intros Hin Hlr. destruct (decide (lr = Some n)) as [->|Hn].
  - apply IH; [|done]. apply elem_of_cons in Hin as [->|]; done.
  - destruct (decide (x = n)) as [->|Hx]; [left|].
    right. apply IH; [|congruence].
    apply elem_of_cons in Hin as [->|]; done.
Qed.

Lemma heads_not_again n ns : contiguous (n :: ns) -> n ∉ heads (Some n) ns.
Proof.
  induction ns as [|m ns IH]; simpl.
  { intros _ H. by apply elem_of_nil in H. }
  intros [Hn [Hm Hns]]. destruct (decide (Some n = Some m)) as [[= <-]|Hne].
  - apply IH. simpl. split; [|done]. destruct Hm as [Hm|Hm]; [by left|by right].
  - destruct Hn as [[= ->]|Hn]; [done|].
    intros Hin. apply Hn. apply elem_of_cons in Hin as [->|Hin]; [left|].
    right. by apply heads_elem_of in Hin.
Qed.

Lemma heads_NoDup lr ns : contiguous ns -> NoDup (heads lr ns).
Proof.
  revert lr. induction ns as [|n ns IH]; intros lr; simpl.
  { constructor. }
  intros [Hn Hns]. destruct (decide (lr = Some n)); [by apply IH|].
  constructor; [|by apply IH].
  apply heads_not_again. simpl. done.
Qed.

Lemma giveRC_all_names column du ps :
  giveRC_all column du = Ok ps -> ps.*1 = names du.
Proof.
  revert ps. induction du as [|d du IH]; intros ps; simpl.
  { by intros [= <-]. }
  rewrite giveRC_fields. destruct (Py.index (fields d) column); [|done].
  simpl. destruct (giveRC_all column du) as [ps'|]; [|done].
  simpl. intros [= <-]. simpl. f_equal. by apply IH.
Qed.

Lemma giveRC_all_total column du :
  Forall (has_field column) du ->
  giveRC_all column du
  = Ok ((fun d => (read_name d,
                   default EmptyString (Py.index (fields d) column))) <$> du).
Proof.
  induction 1 as [|d du [f Hf] _ IH]; simpl; [done|].
  rewrite giveRC_fields, Hf. simpl. by rewrite IH.
Qed.

Lemma giveRC_all_has_field column du ps :
  giveRC_all column du = Ok ps -> Forall (has_field column) du.
Proof.
  revert ps. induction du as [|d du IH]; intros ps; simpl; [constructor|].
  rewrite giveRC_fields.
  destruct (Py.index (fields d) column) as [f|] eqn:Hf; [|done].
  simpl. destruct (giveRC_all column du) as [ps'|]; [|done].
  intros _. constructor; [by exists f|by eapply IH].
Qed.

Lemma giveRC_all_app column du1 du2 :
  giveRC_all column (du1 ++ du2)
  = ps1 ← giveRC_all column du1;
    ps2 ← giveRC_all column du2;
    Ok (ps1 ++ ps2).
Proof.
  induction du1 as [|d du1 IH]; simpl.
  - by destruct (giveRC_all column du2).
  - destruct (giveRC (fields d) column); simpl; [|done].
    rewrite IH. destruct (giveRC_all column du1); simpl; [|done].
    by destruct (giveRC_all column du2).
Qed.

Lemma new_reads_names lr ps : (new_reads lr ps).1.*1 = heads lr ps.*1.
Proof.
  revert lr. induction ps as [|p ps IH]; intros lr; simpl; [done|].
  destruct (decide (lr = Some p.1)); [apply IH|].
  specialize (IH (Some p.1)).
  destruct (new_reads (Some p.1) ps) as [di last]. csimpl in *. by rewrite IH.
Qed.

Lemma new_reads_app lr ps1 ps2 :
  new_reads lr (ps1 ++ ps2)
  = let '(di1, lr1) := new_reads lr ps1 in
    let '(di2, lr2) := new_reads lr1 ps2 in
    (di1 ++ di2, lr2).
Proof.
  revert lr. induction ps1 as [|p ps1 IH]; intros lr; simpl.
  - by destruct (new_reads lr ps2).
  - destruct (decide (lr = Some p.1)); [apply IH|].
    rewrite IH. destruct (new_reads (Some p.1) ps1) as [di1 lr1].
    by destruct (new_reads lr1 ps2).
Qed.

(** Every recorded pair comes from a line: its name with the mismatch count
    of its field. *)
Lemma new_reads_elem_of lr ps n v :
  (n, v) ∈ (new_reads lr ps).1 -> exists f, (n, f) ∈ ps /\ v = mismatches f.
Proof.
  revert lr. induction ps as [|p ps IH]; intros lr; simpl.
  { intros H. by apply elem_of_nil in H. }
  destruct (decide (lr = Some p.1)).
  - intros H. apply IH in H as (f & ? & ?). exists f. split; [by right|done].
  - specialize (IH (Some p.1)).
    destruct (new_reads (Some p.1) ps) as [di last]. simpl in *.
    intros [[= -> ->]|H]%elem_of_cons.
    + exists p.2. split; [|done]. destruct p. left.
    + apply IH in H as (f & ? & ?). exists f. split; [by right|done].
Qed.

(** The first line of a name is recorded, unless it continues the read
    before. *)
Lemma new_reads_first lr ps p :
  head (filter (fun q => q.1 = p.1) ps) = Some p -> lr <> Some p.1 ->
  (p.1, mismatches p.2) ∈ (new_reads lr ps).1.
Proof.
  revert lr. induction ps as [|q ps IH]; intros lr; simpl; [done|].
  rewrite filter_cons. destruct (decide (q.1 = p.1)) as [Hq|Hq]; simpl.
  - intros [= ->] Hlr. rewrite decide_False by done.
    destruct (new_reads (Some p.1) ps). left.
  - intros Hhd Hlr. destruct (decide (lr = Some q.1)); [by apply IH|].
    specialize (IH (Some q.1) Hhd).
    destruct (new_reads (Some q.1) ps). simpl in *. right.
    apply IH. congruence.
Qed.

(** ** Dictionaries *)

Lemma fold_insert_notin (base : list (string * nat)) (m : gmap string nat) n :
  n ∉ base.*1 ->
  fold_left (fun m p => <[p.1 := p.2]> m) base m !! n = m !! n.
Proof.
  revert m. induction base as [|p base IH]; intros m; simpl; [done|].
  intros Hn. apply not_elem_of_cons in Hn as [Hp Hn].
  rewrite IH by done. by rewrite lookup_insert_ne.
Qed.

Lemma fold_insert_in (base : list (string * nat)) (m : gmap string nat) n v :
  NoDup base.*1 -> (n, v) ∈ base ->
  fold_left (fun m p => <[p.1 := p.2]> m) base m !! n = Some v.
Proof.
  revert m. induction base as [|p base IH]; intros m; simpl.
  { intros _ H. by apply elem_of_nil in H. }
  intros [Hp Hnd]%NoDup_cons [<-|Hin]%elem_of_cons.
  - rewrite fold_insert_notin by done. simpl. by rewrite lookup_insert_eq.
  - by apply IH.
Qed.

Lemma fold_insert_dom (base : list (string * nat)) (m : gmap string nat) n :
  is_Some (fold_left (fun m p => <[p.1 := p.2]> m) base m !! n)
  <-> is_Some (m !! n) \/ n ∈ base.*1.
Proof.
  revert m. induction base as [|p base IH]; intros m; simpl.
  { split; [by left|]. intros [|H]; [done|]. by apply elem_of_nil in H. }
  rewrite IH, lookup_insert_is_Some, elem_of_cons.
  destruct (decide (p.1 = n)); intuition congruence.
Qed.

Lemma dict_lookup base n v :
  NoDup base.*1 -> (n, v) ∈ base -> dict base !! n = Some v.
Proof. apply fold_insert_in. Qed.

Lemma dict_is_Some base n : is_Some (dict base !! n) <-> n ∈ base.*1.
Proof.
  unfold dict. rewrite fold_insert_dom, lookup_empty.
  split; [|by right]. intros [[? ?]|]; done.
Qed.

Lemma dict_lookup_inv base n v : dict base !! n = Some v -> (n, v) ∈ base.
Proof.
  unfold dict.
  assert (forall m : gmap string nat,
    fold_left (fun m p => <[p.1 := p.2]> m) base m !! n = Some v ->
    m !! n = Some v \/ (n, v) ∈ base) as H.
  { induction base as [|p base IH]; intros m; simpl; [by left|].
    intros [Hm|Hin]%IH; [|right; by right].
    apply lookup_insert_Some in Hm as [[<- <-]|[_ Hm]]; [right|by left].
    destruct p. left. }
  intros [Hm|Hin]%H; [by rewrite lookup_empty in Hm|done].
Qed.

Lemma NoDup_fst_agree {A B} (l : list (A * B)) x y1 y2 :
  NoDup l.*1 -> (x, y1) ∈ l -> (x, y2) ∈ l -> y1 = y2.
Proof.
  induction l as [|[a b] l IH].
  { intros _ H. by apply elem_of_nil in H. }
  rewrite fmap_cons. simpl. intros [Ha Hnd]%NoDup_cons H1 H2.
  apply elem_of_cons in H1 as [H1|H1];
    apply elem_of_cons in H2 as [H2|H2]; simplify_eq; try done.
  - exfalso. apply Ha. apply list_elem_of_fmap. by exists (a, y2).
  - exfalso. apply Ha. apply list_elem_of_fmap. by exists (a, y1).
  - by apply IH.
Qed.

Lemma new_reads_last lr ps : (new_reads lr ps).2 = last_name lr ps.*1.
Proof.
  revert lr. induction ps as [|p ps IH]; intros lr; csimpl; [done|].
  destruct (decide (lr = Some p.1)) as [->|]; [apply IH|].
  specialize (IH (Some p.1)). by destruct (new_reads (Some p.1) ps).
Qed.

Lemma heads_app lr ns1 ns2 :
  heads lr (ns1 ++ ns2) = heads lr ns1 ++ heads (last_name lr ns1) ns2.
Proof.
  revert lr. induction ns1 as [|n ns1 IH]; intros lr; simpl; [done|].
  destruct (decide (lr = Some n)) as [->|]; [apply IH|].
  by rewrite IH.
Qed.

(** The dictionaries [map2dict] yields are made from consecutive segments
    of the recorded pairs. *)
Lemma map2dict_loop_spec column limit dus lr base :
  exists segs : list (list (string * nat)),
    yielded (map2dict_loop column limit dus lr base) = dict <$> segs
    /\ (concat segs).*1 `prefix_of` base.*1 ++ heads lr (names (concat dus))
    /\ (completes (map2dict_loop column limit dus lr base) = true ->
        exists ps, giveRC_all column (concat dus) = Ok ps
                   /\ concat segs = base ++ (new_reads lr ps).1).
Proof.
  revert lr base. induction dus as [|du dus IH]; intros lr base; simpl.
  { destruct base as [|p base].
    - exists []. simpl. split; [done|]. split; [done|]. by exists [].
    - exists [p :: base]. simpl. rewrite !app_nil_r.
      split; [done|]. split; [done|]. intros _. exists []. split; [done|].
      simpl. by rewrite app_nil_r. }
  destruct (giveRC_all column du) as [du'|e] eqn:Hdu; simpl.
  2: { exists []. simpl. split; [done|]. split; [apply prefix_nil|done]. }
  pose proof (new_reads_names lr du') as Hnames.
  pose proof (new_reads_last lr du') as Hlast.
  rewrite (giveRC_all_names _ _ _ Hdu) in Hnames, Hlast.
  destruct (new_reads lr du') as [di lr'] eqn:Hnr. simpl in Hnames, Hlast.
  unfold names. rewrite fmap_app. fold (names du) (names (concat dus)).
  rewrite heads_app, <- Hnames, <- Hlast.
  destruct (limit <? Z.of_nat (length (base ++ di))); simpl.
  - destruct (IH lr' []) as (segs & Hy & Hpre & Hc).
    exists ((base ++ di) :: segs). simpl. split; [by rewrite Hy|]. split.
    + rewrite !fmap_app, <- !app_assoc. by do 2 apply prefix_app.
    + intros (ps & Hps & Hcat)%Hc. exists (du' ++ ps).
      rewrite giveRC_all_app, Hdu. simpl. rewrite Hps. split; [done|].
      rewrite new_reads_app, Hnr. rewrite Hcat.
      destruct (new_reads lr' ps). simpl. by rewrite <- app_assoc.
  - destruct (IH lr' (base ++ di)) as (segs & Hy & Hpre & Hc).
    exists segs. split; [done|]. split.
    + by rewrite fmap_app, <- app_assoc in Hpre.
    + intros (ps & Hps & Hcat)%Hc. exists (du' ++ ps).
      rewrite giveRC_all_app, Hdu. simpl. rewrite Hps. split; [done|].
      rewrite new_reads_app, Hnr. rewrite Hcat.
      destruct (new_reads lr' ps). simpl. by rewrite <- app_assoc.
Qed.

Lemma map2dict_spec a_file column limit size_buffer :
  exists segs : list (list (string * nat)),
    yielded (map2dict a_file column limit size_buffer) = dict <$> segs
    /\ (concat segs).*1 `prefix_of` heads None (names a_file)
    /\ (completes (map2dict a_file column limit size_buffer) = true ->
        exists ps, giveRC_all column a_file = Ok ps
                   /\ concat segs = (new_reads None ps).1).
Proof.
  unfold map2dict.
  destruct (map2dict_loop_spec column limit (chunks size_buffer a_file)
              None []) as (segs & Hy & Hpre & Hc).
  rewrite concat_chunks in Hpre, Hc. by exists segs.
Qed.

Lemma map2dict_completes a_file column limit size_buffer :
  Forall (has_field column) a_file ->
  completes (map2dict a_file column limit size_buffer) = true.
Proof.
  unfold map2dict. rewrite <- (concat_chunks size_buffer a_file) at 1.
  generalize (chunks size_buffer a_file) (@None string)
    (@nil (string * nat)).
  intros dus. induction dus as [|du dus IH]; intros lr base Hf; simpl.
  { by destruct base. }
  simpl in Hf. apply Forall_app in Hf as [Hdu Hdus].
  rewrite (giveRC_all_total _ _ Hdu).
  destruct (new_reads lr _) as [di lr'].
  destruct (limit <? _); simpl; by apply IH.
Qed.

Lemma elem_of_concat {A} (ls : list (list A)) x :
  x ∈ concat ls <-> exists l, x ∈ l /\ l ∈ ls.
Proof.
  induction ls as [|l ls IH]; simpl.
  { split; [by intros ?%elem_of_nil|]. by intros (l & _ & ?%elem_of_nil). }
  rewrite elem_of_app, IH. split.
  - intros [H|(l' & ? & ?)]; [exists l; split; [done|left]|].
    exists l'. split; [done|by right].
  - intros (l' & Hx & [->|Hl']%elem_of_cons); [by left|right; eauto].
Qed.

Lemma sublist_concat_elem {A} (ls : list (list A)) l :
  l ∈ ls -> l `sublist_of` concat ls.
Proof.
  induction ls as [|l' ls IH]; [by intros ?%elem_of_nil|].
  intros [->|Hl]%elem_of_cons; simpl.
  - by apply sublist_inserts_r.
  - by apply sublist_inserts_l, IH.
Qed.

Lemma prefix_sublist {A} (l1 l2 : list A) :
  l1 `prefix_of` l2 -> l1 `sublist_of` l2.
Proof. intros [k ->]. by apply sublist_inserts_r. Qed.

Lemma fmap_fst_concat {A B} (segs : list (list (A * B))) :
  (concat segs).*1 = concat (fmap (M:=list) fst <$> segs).
Proof.
  induction segs as [|seg segs IH]; [done|].
  simpl. by rewrite fmap_app, IH.
Qed.

Lemma concat_NoDup_apart {A} (ls : list (list A)) i j a b x :
  NoDup (concat ls) -> i <> j -> ls !! i = Some a -> ls !! j = Some b ->
  x ∈ a -> x ∈ b -> False.
Proof.
  revert i j. induction ls as [|l ls IH]; intros i j; simpl.
  { intros _ _ Hi. by rewrite lookup_nil in Hi. }
  intros (Hl & Hdis & Hls)%NoDup_app Hij Hi Hj Ha Hb.
  assert (forall k c, ls !! k = Some c -> x ∈ c -> x ∈ concat ls) as Hcat.
  { intros k c Hk Hc. apply elem_of_concat. exists c.
    split; [done|]. by eapply list_elem_of_lookup_2. }
  destruct i as [|i], j as [|j]; simpl in *; simplify_eq;
    [by eapply Hdis, Hcat..|].
  eapply (IH i j); [done|congruence|done..].
Qed.

Lemma yielded_names a_file column limit size_buffer b n :
  b ∈ yielded (map2dict a_file column limit size_buffer) ->
  is_Some (b !! n) -> n ∈ names a_file.
Proof.
  destruct (map2dict_spec a_file column limit size_buffer)
    as (segs & -> & Hpre & _).
  intros (seg & -> & Hseg)%list_elem_of_fmap Hn%dict_is_Some.
  eapply heads_elem_of, elem_of_prefix; [|exact Hpre].
  rewrite fmap_fst_concat. apply elem_of_concat.
  exists seg.*1. split; [done|]. apply list_elem_of_fmap. by exists seg.
Qed.

Lemma head_filter_fmap_named column (f : list line) n :
  head (filter (fun q : string * string => q.1 = n)
          ((fun d => (read_name d,
                      default EmptyString (Py.index (fields d) column)))
           <$> f))
  = (fun d => (read_name d,
               default EmptyString (Py.index (fields d) column)))
    <$> head (filter (named n) f).
Proof.
  induction f as [|d f IH]; [done|].
  rewrite fmap_cons, !filter_cons. unfold named at 1. simpl.
  destruct (decide (read_name d = n)); done.
Qed.

(** Under contiguity a read name is recorded once, with the mismatch count
    of its first record. *)
Lemma map2dict_lookup a_file column limit size_buffer :
  contiguity (names a_file) ->
  completes (map2dict a_file column limit size_buffer) = true ->
  forall n, n ∈ names a_file ->
    exists i b v,
      yielded (map2dict a_file column limit size_buffer) !! i = Some b
      /\ b !! n = Some v
      /\ first_mismatches column a_file n = Some v
      /\ forall j b', yielded (map2dict a_file column limit size_buffer) !! j
                      = Some b' -> is_Some (b' !! n) -> j = i.
Proof.
  intros Hcont%contiguity_contiguous Hcompl n Hn.
  destruct (map2dict_spec a_file column limit size_buffer)
    as (segs & Hy & Hpre & Hc).
  destruct (Hc Hcompl) as (ps & Hps & Hcat). clear Hc.
  assert (NoDup (concat segs).*1) as Hnd.
  { apply (sublist_NoDup _ (heads None (names a_file)));
      [by apply heads_NoDup|by apply prefix_sublist]. }
  pose proof (giveRC_all_has_field _ _ _ Hps) as Hfld.
  rewrite (giveRC_all_total _ _ Hfld) in Hps. injection Hps as <-.
  set (g := fun d => (read_name d,
                      default EmptyString (Py.index (fields d) column))) in *.
  (* the first line named [n] *)
  destruct (head (filter (named n) a_file)) as [d|] eqn:Hd.
  2: { apply head_None in Hd. exfalso.
       apply list_elem_of_fmap in Hn as (d & -> & Hin).
       exact (filter_nil_not_elem_of _ _ d Hd eq_refl Hin). }
  assert (d ∈ filter (named n) a_file) as Hdin.
  { destruct (filter (named n) a_file); simplify_eq/=. left. }
  apply list_elem_of_filter in Hdin as [Hdn Hdin].
  assert (has_field column d) as [fld Hfl].
  { by eapply Forall_forall in Hfld. }
  assert ((n, mismatches fld) ∈ concat segs) as Hin.
  { rewrite Hcat.
    replace (n, mismatches fld) with ((g d).1, mismatches (g d).2)
      by (unfold g; simpl; by rewrite Hdn, Hfl).
    apply new_reads_first; [|done].
    unfold g at 1. simpl. rewrite Hdn. unfold g.
    rewrite head_filter_fmap_named, Hd. done. }
  apply elem_of_concat in Hin as (seg & Hin & Hseg).
  apply list_elem_of_lookup in Hseg as [i Hi].
  assert (NoDup seg.*1) as Hnds.
  { apply (sublist_NoDup _ (concat segs).*1); [exact Hnd|].
    rewrite fmap_fst_concat.
    apply sublist_concat_elem. apply list_elem_of_fmap.
    exists seg. split; [done|]. by eapply list_elem_of_lookup_2. }
  exists i, (dict seg), (mismatches fld). split; [|split; [|split]].
  - rewrite Hy, list_lookup_fmap, Hi. done.
  - by apply dict_lookup.
  - unfold first_mismatches. rewrite Hd. simpl. rewrite Hfl. done.
  - intros j b'. rewrite Hy, list_lookup_fmap.
    destruct (segs !! j) as [seg'|] eqn:Hj; [|done]. simpl.
    intros [= <-] Hsome%dict_is_Some.
    destruct (decide (j = i)) as [|Hji]; [done|]. exfalso.
    rewrite fmap_fst_concat in Hnd.
    eapply (concat_NoDup_apart _ j i seg'.*1 seg.*1 n Hnd Hji).
    + by rewrite list_lookup_fmap, Hj.
    + by rewrite list_lookup_fmap, Hi.
    + done.
    + apply list_elem_of_fmap. by exists (n, mismatches fld).
Qed.

Lemma map2dict_apart a_file column limit size_buffer i j b1 b2 n :
  contiguity (names a_file) -> i <> j ->
  yielded (map2dict a_file column limit size_buffer) !! i = Some b1 ->
  yielded (map2dict a_file column limit size_buffer) !! j = Some b2 ->
  is_Some (b1 !! n) -> is_Some (b2 !! n) -> False.
Proof.
  intros Hcont%contiguity_contiguous Hij.
  destruct (map2dict_spec a_file column limit size_buffer)
    as (segs & -> & Hpre & _).
  rewrite !list_lookup_fmap.
  destruct (segs !! i) as [s1|] eqn:Hi; [|done].
  destruct (segs !! j) as [s2|] eqn:Hj; [|done]. simpl.
  intros [= <-] [= <-] H1%dict_is_Some H2%dict_is_Some.
  assert (NoDup (concat segs).*1) as Hnd.
  { apply (sublist_NoDup _ (heads None (names a_file)));
      [by apply heads_NoDup|by apply prefix_sublist]. }
  rewrite fmap_fst_concat in Hnd.
  eapply (concat_NoDup_apart _ i j s1.*1 s2.*1 n Hnd Hij); [| |done..].
  - by rewrite list_lookup_fmap, Hi.
  - by rewrite list_lookup_fmap, Hj.
Qed.

(** C7.  When the records of every read name are consecutive in the first
    file, the dictionaries [map2dict] yields have pairwise disjoint key
    sets, whatever the chunk size and the threshold; and when every line
    has the mismatch field, every read name of the file is a key of exactly
    one of them, where it is mapped to the mismatch count of its first
    record. *)
Theorem map2dict_batches_disjoint a_file column limit size_buffer :
  contiguity (names a_file) ->
  (forall i j b1 b2,
      i <> j ->
      yielded (map2dict a_file column limit size_buffer) !! i = Some b1 ->
      yielded (map2dict a_file column limit size_buffer) !! j = Some b2 ->
      dom b1 ## dom b2)
  /\ (Forall (has_field column) a_file ->
      forall n, n ∈ names a_file ->
        exists i b,
          yielded (map2dict a_file column limit size_buffer) !! i = Some b
          /\ n ∈ dom b
          /\ b !! n = first_mismatches column a_file n
          /\ forall j b',
               yielded (map2dict a_file column limit size_buffer) !! j
               = Some b' ->
               n ∈ dom b' -> j = i).
Proof.
  intros Hcont. split.
  - intros i j b1 b2 Hij Hi Hj. apply elem_of_disjoint.
    intros n H1%elem_of_dom H2%elem_of_dom.
    by eapply (map2dict_apart a_file column limit size_buffer i j).
  - intros Hfld n Hn.
    destruct (map2dict_lookup a_file column limit size_buffer Hcont
                (map2dict_completes _ _ _ _ Hfld) n Hn)
      as (i & b & v & Hi & Hb & Hv & Huniq).
    exists i, b. split; [done|]. split; [by apply elem_of_dom|].
    split; [by rewrite Hb, Hv|].
    intros j b' Hj Hin%elem_of_dom. by eapply Huniq.
Qed.

Lemma map2dict_batches_disjoint_witness :
  (forall i j b1 b2,
      i <> j ->
      yielded (map2dict Ex.genome 7 0 40) !! i = Some b1 ->
      yielded (map2dict Ex.genome 7 0 40) !! j = Some b2 ->
      dom b1 ## dom b2)
  /\ (Forall (has_field 7) Ex.genome ->
      forall n, n ∈ names Ex.genome ->
        exists i b,
          yielded (map2dict Ex.genome 7 0 40) !! i = Some b
          /\ n ∈ dom b
          /\ b !! n = first_mismatches 7 Ex.genome n
          /\ forall j b',
               yielded (map2dict Ex.genome 7 0 40) !! j = Some b' ->
               n ∈ dom b' -> j = i).
Proof.
  apply (map2dict_batches_disjoint Ex.genome 7 0 40).
  apply contiguous_contiguity. by_compute.
Defined.

(** The example file yields two dictionaries: a alone, then b and c. *)
Example genome_batches :
  yielded (map2dict Ex.genome 7 0 40)
  = [ {[ "a" := 1%nat ]}; <[ "c" := O ]> {[ "b" := O ]} ].
Proof. by vm_compute. Qed.

(** ** The driver loop *)

Lemma passes_Yield mc hint baza rest st in1 ps last :
  passes mc hint (Yield baza rest) st in1 = Ok (ps, last) ->
  exists st' fout final ps',
    for_lines baza mc st in1 = Ok (st', (fout, final))
    /\ passes mc hint rest st' fout = Ok (ps', last)
    /\ ps = PassRec baza st in1 fout final :: ps'.
Proof.
  simpl. rewrite pass_chunks_lines. intros H.
  inv_bind H. destruct a as [st' [fout final]].
  inv_bind H. destruct a as [ps' last']. injection H as <- <-.
  by exists st', fout, final, ps'.
Qed.

(** The size hint of the passes does not show in their result. *)
Lemma passes_hint mc hint hint' bs st in1 :
  passes mc hint bs st in1 = passes mc hint' bs st in1.
Proof.
  revert st in1. induction bs as [| |baza rest IH]; intros st in1; simpl;
    [done..|].
  rewrite !pass_chunks_lines.
  destruct (for_lines baza mc st in1) as [[st' [fout final]]|]; simpl; [|done].
  by rewrite IH.
Qed.

Lemma assemble_eq hint ps last :
  assemble hint ps last = concat (p_final <$> ps) ++ last.
Proof. unfold assemble. by rewrite concat_chunks. Qed.

Lemma passes_yielded mc hint bs st in1 ps last :
  passes mc hint bs st in1 = Ok (ps, last) ->
  completes bs = true /\ p_baza <$> ps = yielded bs.
Proof.
  revert st in1 ps. induction bs as [| |baza rest IH]; intros st in1 ps.
  - by intros [= <- _].
  - done.
  - intros (st' & fout & final & ps' & _ & Hrest & ->)%passes_Yield.
    apply IH in Hrest as [? ?]. simpl. split; [done|]. by f_equal.
Qed.

Lemma route_sublist d l (bufs : list line * list line) src :
  bufs.1 `sublist_of` src -> bufs.2 `sublist_of` src ->
  (route d l bufs).1 `sublist_of` l :: src
  /\ (route d l bufs).2 `sublist_of` l :: src.
Proof.
  intros H1 H2. destruct d; simpl; split;
    first [by apply sublist_skip | by apply sublist_cons].
Qed.

Lemma for_lines_sublist baza mc st src st' bufs :
  for_lines baza mc st src = Ok (st', bufs) ->
  bufs.1 `sublist_of` src /\ bufs.2 `sublist_of` src.
Proof.
  revert st st' bufs. induction src as [|l src IH]; intros st st' bufs.
  { by intros [= <- <-]. }
  intros (st1 & d & bufs' & _ & Hrest & ->)%for_lines_cons.
  apply IH in Hrest as [H1 H2]. by apply route_sublist.
Qed.

Lemma passes_sublist mc hint bs st in1 ps last :
  passes mc hint bs st in1 = Ok (ps, last) ->
  last `sublist_of` in1
  /\ Forall (fun p => p_source p `sublist_of` in1
                      /\ p_fout p `sublist_of` in1
                      /\ p_final p `sublist_of` in1) ps.
Proof.
  revert st in1 ps. induction bs as [| |baza rest IH]; intros st in1 ps.
  - intros [= <- <-]. by split.
  - done.
  - intros (st' & fout & final & ps' & Hpass & Hrest & ->)%passes_Yield.
    apply for_lines_sublist in Hpass as [Hfout Hfinal]. simpl in *.
    apply IH in Hrest as [Hlast Hps]. split; [by etrans|].
    constructor; [done|].
    eapply Forall_impl; [exact Hps|]. simpl.
    intros p (? & ? & ?). repeat split; by etrans.
Qed.





Lemma filter_none {A} (P : A -> Prop) `{!forall x, Decision (P x)}
    (l : list A) :
  (forall x, x ∈ l -> ~ P x) -> filter P l = [].
Proof.
  induction l as [|x l IH]; intros Hl; [done|].
  rewrite filter_cons_False by (apply Hl; left).
  apply IH. intros y Hy. apply Hl. by right.
Qed.

Lemma filter_ext_in {A} (P Q : A -> Prop) `{!forall x, Decision (P x)}
    `{!forall x, Decision (Q x)} (l : list A) :
  (forall x, x ∈ l -> P x <-> Q x) -> filter P l = filter Q l.
Proof.
  induction l as [|x l IH]; intros Hl; [done|].
  rewrite !filter_cons. rewrite IH by (intros y Hy; apply Hl; by right).
  destruct (decide (P x)) as [HP|HP], (decide (Q x)) as [HQ|HQ]; try done.
  - destruct HQ. apply Hl; [left|done].
  - destruct HP. apply Hl; [left|done].
Qed.


(** ** Properties of the mismatch count *)





(** ** When the mismatch field is read *)

(** C10.  A line of the source can raise [IndexError] only when it starts a
    new read group (its name differs from the carried one), its name is a
    key of the current dictionary, and it lacks the mismatch field.  A line
    that continues the current group goes where the flags say, and a line
    that starts a group absent from the dictionary goes to the residue,
    whatever its fields are.  So a pass that raises has met a line whose
    name is in its dictionary. *)
Theorem field_read_only_when_tested baza mc st l :
  (forall e, step baza mc st l = Raise e <->
     e = IndexError
     /\ lastread st <> Some (read_name l)
     /\ is_Some (baza !! read_name l)
     /\ ~ has_field mc l)
  /\ (lastread st = Some (read_name l) ->
      step baza mc st l = Ok (st, dest_of st))
  /\ (lastread st <> Some (read_name l) -> baza !! read_name l = None ->
      step baza mc st l
      = Ok (PState (Some (read_name l)) true false, ToResidue))
  /\ (forall ls e, for_lines baza mc st ls = Raise e ->
        e = IndexError
        /\ exists l', l' ∈ ls /\ is_Some (baza !! read_name l')
                      /\ ~ has_field mc l').
Proof.
  split; [|split; [apply step_carried|split]].
  - intros e. rewrite step_eq. unfold has_field.
    destruct (decide (lastread st = Some (read_name l))) as [Hc|Hc].
    { split; [done|]. by intros (_ & ? & _). }
    destruct (baza !! read_name l) as [ref|].
    2: { split; [done|]. by intros (_ & _ & [? ?] & _). }
    destruct (Py.index (fields l) mc) as [f|].
    + split; [by destruct (_ <=? _)%nat|].
      intros (_ & _ & _ & H). exfalso. apply H. by exists f.
    + split.
      * intros [= <-]. repeat split; [done|by exists ref|by intros [? ?]].
      * by intros (-> & _).
  - intros Hc Hb. rewrite step_eq. rewrite decide_False by done.
    by rewrite Hb.
  - intros ls e. apply for_lines_Raise.
Qed.

Lemma field_read_only_when_tested_witness :
  step ∅ 7 init_pstate Ex.short
  = Ok (PState (Some "s") true false, ToResidue)
  /\ step {[ "s" := O ]} 7 init_pstate Ex.short = Raise IndexError
  /\ step {[ "s" := O ]} 7 (PState (Some "s") true true) Ex.short
     = Ok (PState (Some "s") true true, ToFinal).
Proof.
  split; [|split].
  - apply (field_read_only_when_tested ∅ 7 init_pstate Ex.short); done.
  - apply (field_read_only_when_tested {[ "s" := O ]} 7 init_pstate Ex.short).
    split; [done|]. split; [done|]. split; [exists O; by vm_compute|].
    intros [f Hf]. by vm_compute in Hf.
  - apply (field_read_only_when_tested {[ "s" := O ]} 7
             (PState (Some "s") true true) Ex.short). done.
Defined.

(** ** Reads the first file does not mention *)

Lemma run_with_passes limit size_buffer hint column map_1 map_2 out :
  run_with limit size_buffer hint column map_1 map_2 = Ok out ->
  exists ps last,
    passes (column - 1) hint
      (map2dict map_1 (column - 1) limit size_buffer) init_pstate map_2
    = Ok (ps, last)
    /\ out = concat (p_final <$> ps) ++ last.
Proof.
  unfold run_with, trace_with. intros H. inv_bind H. destruct a as [ps last].
  injection H as <-. exists ps, last. by rewrite assemble_eq.
Qed.



(** ** Order of the output *)

Lemma sublist_same_length {A} (l1 l2 : list A) :
  l1 `sublist_of` l2 -> (length l2 <= length l1)%nat -> l1 = l2.
Proof.
  induction 1 as [|x l1 l2 Hsub IH|x l1 l2 Hsub IH]; simpl; intros Hlen.
  - done.
  - f_equal. apply IH. lia.
  - apply sublist_length in Hsub. lia.
Qed.

(** C5, as the claim words it, fails: with the script's own constants, a
    read absent from the first file that comes first in the second file
    comes last in the output. *)
Lemma order_not_preserved :
  run_with default_limit_counts_reads default_size_buffer default_lines_hint
    8 [Ex.a0] [Ex.c0; Ex.a0]
  = Ok [Ex.a0; Ex.c0]
  /\ ~ [Ex.a0; Ex.c0] `sublist_of` [Ex.c0; Ex.a0].
Proof.
  split; [by vm_compute|].
  intros H%sublist_same_length; [|done]. by vm_compute in H.
Qed.

(** C5, as the code has it.  The output is what the first pass finalised,
    then what the second pass finalised, and so on, then the records no
    pass decided; each of these segments keeps the relative order of the
    second input file.  With no dictionary at all the output is the second
    input file. *)
Theorem output_order_by_pass limit size_buffer hint column map_1 map_2 out :
  run_with limit size_buffer hint column map_1 map_2 = Ok out ->
  exists ps last,
    trace_with limit size_buffer hint column map_1 map_2 = Ok (ps, last)
    /\ out = concat (p_final <$> ps) ++ last
    /\ Forall (fun p => p_final p `sublist_of` map_2) ps
    /\ last `sublist_of` map_2
    /\ (ps = [] -> out = map_2).
Proof.
  intros (ps & last & Hps & ->)%run_with_passes.
  exists ps, last. split; [done|]. split; [done|].
  pose proof (passes_sublist _ _ _ _ _ _ _ Hps) as [Hlast Hfor].
  split; [|split; [done|]].
  - eapply Forall_impl; [exact Hfor|]. by intros p (_ & _ & ?).
  - intros ->. simpl.
    destruct (map2dict map_1 (column - 1) limit size_buffer) as [| |baza rest].
    + by injection Hps as <-.
    + done.
    + by apply passes_Yield in Hps as (? & ? & ? & ? & _ & _ & ?).
Qed.

Lemma output_order_by_pass_witness :
  exists ps last,
    trace_with 0 40 1 8 Ex.genome [Ex.c0; Ex.z0; Ex.b0; Ex.a0] = Ok (ps, last)
    /\ [Ex.a0; Ex.c0; Ex.b0; Ex.z0] = concat (p_final <$> ps) ++ last
    /\ Forall (fun p => p_final p `sublist_of` [Ex.c0; Ex.z0; Ex.b0; Ex.a0]) ps
    /\ last `sublist_of` [Ex.c0; Ex.z0; Ex.b0; Ex.a0]
    /\ (ps = [] -> [Ex.a0; Ex.c0; Ex.b0; Ex.z0]
                   = [Ex.c0; Ex.z0; Ex.b0; Ex.a0]).
Proof.
  apply (output_order_by_pass 0 40 1 8 Ex.genome
           [Ex.c0; Ex.z0; Ex.b0; Ex.a0]).
  by vm_compute.
Defined.

(** ** Read groups go one way *)







(** ** What a pass writes *)

Lemma carried_Some st src u :
  carried st src = Some u ->
  lastread st = Some u /\ head (names src) = Some u.
Proof.
  destruct src as [|l src]; simpl; [done|].
  case_decide; [|done]. by intros [= <-].
Qed.

Lemma first_mismatches_cons mc l src n :
  first_mismatches mc (l :: src) n
  = if decide (read_name l = n)
    then fld ← Py.index (fields l) mc; Some (mismatches fld)
    else first_mismatches mc src n.
Proof.
  unfold first_mismatches. rewrite filter_cons. unfold named at 1.
  by destruct (decide (read_name l = n)).
Qed.

(** The first line of a source goes where the predicates say. *)
Lemma step_to baza mc st l src st1 d1 :
  step baza mc st l = Ok (st1, d1) ->
  (to_residue baza st (l :: src) l <-> d1 = ToResidue)
  /\ (to_final baza mc st (l :: src) l <-> d1 = ToFinal).
Proof.
  unfold to_residue, to_final, undecided, kept. simpl carried.
  rewrite step_eq, first_mismatches_cons.
  rewrite (decide_True (P := read_name l = read_name l)) by done.
  destruct (decide (lastread st = Some (read_name l))) as [Hc|Hc].
  { rewrite !decide_True by done. by intros [= <- <-]. }
  rewrite !decide_False by done.
  destruct (baza !! read_name l) as [ref|]; [|by intros [= <- <-]].
  destruct (Py.index (fields l) mc) as [f|]; [|done]. simpl.
  destruct (mismatches f <=? ref)%nat eqn:Hle; intros [= <- <-].
  - apply Nat.leb_le in Hle. done.
  - apply Nat.leb_gt in Hle. split; [done|]. split; [lia|done].
Qed.

(** The later lines of a source: the predicates of the whole source and
    those of its tail, entered with the state the first line leaves,
    agree. *)
Lemma to_tail baza mc st l src st1 d1 l' :
  (head (names src) = Some (read_name l) \/ read_name l ∉ names src) ->
  step baza mc st l = Ok (st1, d1) -> l' ∈ src ->
  (to_residue baza st (l :: src) l' <-> to_residue baza st1 src l')
  /\ (to_final baza mc st (l :: src) l' <-> to_final baza mc st1 src l').
Proof.
  intros Hhd Hstep Hin.
  pose proof (step_dest _ _ _ _ _ _ Hstep) as [Hlr Hd1].
  destruct (decide (read_name l' = read_name l)) as [Heq|Hne].
  - (* a further line of the first read: the source's tail opens with it *)
    assert (carried st1 src = Some (read_name l')) as Hcar.
    { destruct Hhd as [Hhd|Hnotin].
      - destruct src as [|l2 src]; [done|]. simpl in *.
        injection Hhd as Hhd. rewrite Hlr, Hhd, Heq. by rewrite decide_True.
      - destruct Hnotin. rewrite <- Heq. apply list_elem_of_fmap. by exists l'. }
    destruct (step_to _ _ _ _ src _ _ Hstep) as [Hres Hfin].
    unfold to_residue, to_final, undecided, kept in *. rewrite Hcar, !Heq.
    rewrite !(decide_True (P := Some (read_name l) = Some (read_name l)))
      by done.
    rewrite Hd1. done.
  - (* a line of another read *)
    assert (carried st (l :: src) <> Some (read_name l')) as Hc.
    { simpl. case_decide; congruence. }
    assert (carried st1 src <> Some (read_name l')) as Hc1.
    { intros [Hc1 _]%carried_Some. congruence. }
    unfold to_residue, to_final, kept.
    rewrite !decide_False by done.
    rewrite first_mismatches_cons, decide_False by done. done.
Qed.

(** What one pass writes to its residue and to the final output. *)
Lemma for_lines_spec baza mc st src st' bufs :
  contiguous (names src) ->
  for_lines baza mc st src = Ok (st', bufs) ->
  bufs.1 = filter (to_residue baza st src) src
  /\ bufs.2 = filter (to_final baza mc st src) src.
Proof.
  revert st st' bufs. induction src as [|l src IH]; intros st st' bufs.
  { by intros _ [= <- <-]. }
  intros [Hhd Hcont].
  intros (st1 & d1 & bufs' & Hstep & Hrest & ->)%for_lines_cons.
  destruct (IH _ _ _ Hcont Hrest) as [H1 H2].
  destruct (step_to _ _ _ _ src _ _ Hstep) as [Hres Hfin].
  rewrite !filter_cons.
  rewrite (filter_ext_in (to_residue baza st (l :: src))
             (to_residue baza st1 src) src)
    by (intros l' Hl'; by apply (to_tail baza mc st l src st1 d1 l')).
  rewrite (filter_ext_in (to_final baza mc st (l :: src))
             (to_final baza mc st1 src) src)
    by (intros l' Hl'; by apply (to_tail baza mc st l src st1 d1 l')).
  rewrite <- H1, <- H2.
  destruct d1; simpl; repeat case_decide; try done; intuition congruence.
Qed.

Lemma to_residue_name baza st src l l' :
  read_name l = read_name l' ->
  to_residue baza st src l -> to_residue baza st src l'.
Proof. unfold to_residue, undecided. by intros ->. Qed.

Lemma carried_app st pre l :
  pre <> [] -> carried st (pre ++ [l]) = carried st pre.
Proof. by destruct pre. Qed.

(** After a pass the flags say "residue" whenever the read the pass ended
    with has a line in the residue. *)
Lemma state_after_pass baza mc st src st' bufs u :
  contiguous (names src) ->
  for_lines baza mc st src = Ok (st', bufs) ->
  lastread st' = Some u -> u ∈ names bufs.1 -> dest_of st' = ToResidue.
Proof.
  intros Hcont Hrun Hlr Hu.
  destruct (for_lines_spec _ _ _ _ _ _ Hcont Hrun) as [Hres _].
  destruct src as [|l0 src0] using rev_ind.
  { injection Hrun as <- <-. by apply elem_of_nil in Hu. }
  clear IHsrc0. rename src0 into pre, l0 into l.
  rewrite for_lines_app in Hrun.
  bind_inv Hrun as [st_mid [data1 final1]] Hpass1.
  bind_inv Hrun as [st2 [data2 final2]] Hpass2.
  injection Hrun as <- <-. simpl in Hpass2.
  bind_inv Hpass2 as [st2' d] Hstep. injection Hpass2 as <- Hroute.
  pose proof (step_dest _ _ _ _ _ _ Hstep) as [Hname Hd].
  rewrite Hlr in Hname. injection Hname as ->.
  assert (contiguous (names pre)) as Hpre.
  { eapply contiguous_sublist; [|exact Hcont].
    apply names_sublist. by apply sublist_inserts_r. }
  destruct (for_lines_spec _ _ _ _ _ _ Hpre Hpass1) as [Hdata1 _].
  simpl in Hres, Hdata1, Hu.
  assert (data1 = filter (to_residue baza st (pre ++ [l])) pre) as Hdata1'.
  { destruct pre as [|l1 pre]; [by rewrite Hdata1|].
    rewrite Hdata1. apply filter_ext_in. intros x _.
    unfold to_residue. by rewrite carried_app. }
  assert (to_residue baza st (pre ++ [l]) l) as Hl.
  { apply list_elem_of_fmap in Hu as (l0 & Hname & Hin).
    rewrite Hres in Hin. apply list_elem_of_filter in Hin as [Hl0 _].
    by apply (to_residue_name _ _ _ l0). }
  rewrite filter_app, <- Hdata1' in Hres. apply app_inv_head in Hres.
  rewrite filter_cons_True in Hres by done.
  rewrite Hd. destruct d; simpl in Hroute; by simplify_eq.
Qed.

(** A pass that does not open on lines of the carried read, or opens on
    them when the dictionary does not hold that read, splits its source by
    the keep rule. *)
Lemma for_lines_clean baza mc st src st' bufs :
  contiguous (names src) ->
  (forall u, carried st src = Some u ->
             baza !! u = None /\ dest_of st = ToResidue) ->
  for_lines baza mc st src = Ok (st', bufs) ->
  bufs.1 = filter (undecided baza) src
  /\ bufs.2 = filter (kept baza mc src) src.
Proof.
  intros Hcont Hcar Hrun.
  destruct (for_lines_spec _ _ _ _ _ _ Hcont Hrun) as [-> ->].
  split; apply filter_ext_in; intros l _.
  - unfold to_residue, undecided. case_decide as Hc; [|done].
    apply Hcar in Hc as [? ?]. done.
  - unfold to_final, kept. case_decide as Hc; [|done].
    apply Hcar in Hc as [-> ->]. done.
Qed.

(** ** The keep rule over all passes *)







Lemma lookup_first_unique bl n i b v :
  bl !! i = Some b -> b !! n = Some v ->
  (forall j b', bl !! j = Some b' -> is_Some (b' !! n) -> j = i) ->
  lookup_first bl n = Some v.
Proof.
  revert i. induction bl as [|b0 bl IH]; intros i; [done|].
  destruct i as [|i]; simpl.
  - intros [= ->] -> _. done.
  - intros Hi Hb Huniq. destruct (b0 !! n) as [v0|] eqn:Hb0.
    + by specialize (Huniq O b0 eq_refl (ltac:(by exists v0))).
    + apply (IH i); [done..|]. intros j b' Hj Hn.
      by specialize (Huniq (S j) b' Hj Hn) as [= ->].
Qed.

Lemma lookup_first_None bl n :
  (forall b, b ∈ bl -> b !! n = None) -> lookup_first bl n = None.
Proof.
  induction bl as [|b bl IH]; intros H; simpl; [done|].
  rewrite (H b) by left. apply IH. intros b' Hb'. apply H. by right.
Qed.

Lemma lookup_first_Some bl n v :
  lookup_first bl n = Some v -> exists b, b ∈ bl /\ b !! n = Some v.
Proof.
  induction bl as [|b bl IH]; simpl; [done|].
  destruct (b !! n) as [v0|] eqn:Hb.
  - intros [= ->]. exists b. split; [left|done].
  - intros (b' & ? & ?)%IH. exists b'. split; [by right|done].
Qed.

(** With the records of every read consecutive in the first file, the
    dictionaries together map a read to the mismatch count of its first
    record. *)
Lemma lookup_first_yielded map_1 mc limit size_buffer n :
  contiguity (names map_1) ->
  completes (map2dict map_1 mc limit size_buffer) = true ->
  lookup_first (yielded (map2dict map_1 mc limit size_buffer)) n
  = first_mismatches mc map_1 n.
Proof.
  intros Hcont Hcompl. destruct (decide (n ∈ names map_1)) as [Hn|Hn].
  - destruct (map2dict_lookup _ _ _ _ Hcont Hcompl n Hn)
      as (i & b & v & Hi & Hb & -> & Huniq).
    by eapply lookup_first_unique.
  - rewrite lookup_first_None.
    + unfold first_mismatches. rewrite filter_none; [done|].
      intros l Hl Hnamed. apply Hn. apply list_elem_of_fmap. by exists l.
    + intros b Hb. destruct (b !! n) eqn:Hbn; [|done].
      destruct Hn. eapply yielded_names; [exact Hb|by rewrite Hbn].
Qed.





(** ** The keep rule for one read *)





(** The keep rule on the example of the tool's description: r1 is dropped,
    r2 and r3 are kept; r3, which no dictionary decides, comes last. *)
Example description_example :
  run_with default_limit_counts_reads default_size_buffer default_lines_hint
    8 [Ex.r1_ref; Ex.r2_ref] [Ex.r3; Ex.r3'; Ex.r1; Ex.r1'; Ex.r2]
  = Ok [Ex.r2; Ex.r3; Ex.r3'].
Proof. by vm_compute. Qed.

(** The state the passes share: when a residue is one read group and the
    pass before ended on it, the next pass does not look it up.  With one
    dictionary the read x, worse in the second file, is dropped; with two
    it is kept. *)
Example carried_group_not_looked_up :
  run_with 100 1 1 8 [Ex.a0; Ex.x0] [Ex.x1] = Ok []
  /\ run_with 0 1 1 8 [Ex.a0; Ex.x0] [Ex.x1] = Ok [Ex.x1]
  /\ exists ps last,
       trace_with 0 1 1 8 [Ex.a0; Ex.x0] [Ex.x1] = Ok (ps, last)
       /\ Exists retests_nothing ps.
Proof.
  split; [by vm_compute|]. split; [by vm_compute|].
  eexists. eexists. split; [vm_compute; reflexivity|]. by_compute.
Qed.

(** ** The files the script removes *)

Lemma spares_open_w m2 name w : spares m2 w -> spares m2 (open_w name w).
Proof.
  intros (Hm2 & Ht & Hr). split; [|done]. simpl.
  apply lookup_insert_is_Some. destruct (decide (name = m2)); auto.
Qed.

Lemma spares_writelines m2 name ls w :
  spares m2 w -> spares m2 (writelines name ls w).
Proof.
  intros (Hm2 & Ht & Hr). split; [|done]. simpl.
  rewrite lookup_alter. case_decide; [|done]. subst.
  destruct Hm2 as [c ->]. by eexists.
Qed.

Lemma spares_os_remove m2 name w w' :
  spares m2 w -> name ∈ temps w -> os_remove name w = Ok w' ->
  spares m2 w' /\ temps w' = temps w.
Proof.
  intros (Hm2 & Ht & Hr) Hname. unfold os_remove.
  destruct (files w !! name); [|done]. intros [= <-].
  unfold spares. simpl. split; [|done]. split; [|split; [done|]].
  - rewrite lookup_delete_ne; [done|].
    by eapply Forall_forall in Ht.
  - apply Forall_app. split; [done|]. by constructor.
Qed.

Section Removals.

Variable mkstemp : gset string -> string.
Hypothesis mkstemp_fresh : forall X, mkstemp X ∉ X.

Lemma spares_temp m2 tmp w t w' :
  spares m2 w -> give_me_temp_filename mkstemp tmp w = (t, w') ->
  spares m2 w' /\ t ∈ temps w' /\ (forall r, r ∈ temps w -> r ∈ temps w').
Proof.
  intros (Hm2 & Ht & Hr). unfold give_me_temp_filename. intros [= <- <-].
  assert (mkstemp (dom (files w)) <> m2) as Hne.
  { intros Heq. apply (mkstemp_fresh (dom (files w))).
    rewrite Heq. by apply elem_of_dom. }
  unfold spares. simpl. split; [split; [|split]|split].
  - by rewrite lookup_insert_ne.
  - apply Forall_app. split; [done|]. by constructor.
  - eapply Forall_impl; [exact Hr|]. simpl. intros r Hin.
    apply elem_of_app. by left.
  - apply elem_of_app. right. left.
  - intros r Hin. apply elem_of_app. by left.
Qed.

Lemma driver_loop_spares m2 tmp mc hint out bs st first_flag in1 ou1 w
    ff in1' ou1' w' :
  spares m2 w -> ou1 ∈ temps w -> (first_flag = false -> in1 ∈ temps w) ->
  driver_loop mkstemp tmp mc hint out bs st first_flag in1 ou1 w
  = Ok (ff, in1', ou1', w') ->
  spares m2 w' /\ ou1' ∈ temps w' /\ (ff = false -> in1' ∈ temps w').
Proof.
  revert st first_flag in1 ou1 w.
  induction bs as [| |baza rest IH]; intros st first_flag in1 ou1 w Hw Hou Hin.
  - by intros [= <- <- <- <-].
  - done.
  - simpl. intros H.
    bind_inv H as lines Hopen.
    bind_inv H as [st' [fout final]] Hpass.
    bind_inv H as w3 Hrm.
    destruct (give_me_temp_filename mkstemp tmp w3) as [ou2 w4] eqn:Htemp.
    set (w2 := writelines out final (writelines ou1 fout (open_w ou1 w)))
      in Hrm.
    assert (spares m2 w2) as Hw2.
    { by apply spares_writelines, spares_writelines, spares_open_w. }
    assert (spares m2 w3 /\ temps w3 = temps w) as [Hw3 Htemps].
    { destruct first_flag.
      - injection Hrm as <-. by split.
      - apply (spares_os_remove m2) in Hrm as [? ?]; [by split|done|].
        by apply Hin. }
    destruct (spares_temp _ _ _ _ _ Hw3 Htemp) as (Hw4 & Hou2 & Hmono).
    unfold give_me_temp_filename in Htemp. injection Htemp as <- <-.
    apply IH in H; [done|done|done|].
    intros _. apply Hmono. by rewrite Htemps.
Qed.

(** C9.  In every run that ends normally, whatever the number of
    dictionaries, every file the script removes is one of the temporary
    files it created, none of which is the second input; the second input
    is still there at the end. *)
Theorem second_input_never_removed limit size_buffer hint o fs m2 w' :
  map_2_filename o = Some m2 -> is_Some (fs !! m2) ->
  main_with mkstemp limit size_buffer hint o (World fs [] []) = Ok w' ->
  Forall (fun r => r ∈ temps w' /\ r <> m2) (removed w')
  /\ is_Some (files w' !! m2).
Proof.
  intros Hm2 Hfs. unfold main_with. rewrite Hm2.
  destruct (negb _); [done|].
  destruct (map_1_filename o) as [m1|]; [|done].
  destruct (output_filename o) as [out|]; [|done].
  destruct (give_me_temp_filename mkstemp (tmp_dir o) (World fs [] []))
    as [ou1 w1] eqn:Htemp.
  intros H. bind_inv H as a_file Hopen.
  bind_inv H as [[[ff in1'] ou1'] w2] Hloop. unfold after_loop in H.
  bind_inv H as w3 Hrm. bind_inv H as lines Hlast.
  assert (spares m2 (World fs [] [])) as Hw0 by (by split).
  destruct (spares_temp _ _ _ _ _ Hw0 Htemp) as (Hw1 & Hou1 & _).
  apply (driver_loop_spares m2) in Hloop as (Hw2 & Hou2 & Hin2);
    [|by apply spares_open_w|done|done].
  apply (spares_os_remove m2) in Hrm as [Hw3 Htemps]; [|done..].
  assert (spares m2 w') as (Hsome & Ht & Hr).
  { destruct ff; simpl in H.
    - injection H as <-. by apply spares_writelines.
    - apply (spares_os_remove m2) in H as [? _]; [done| |].
      + by apply spares_writelines.
      + simpl. rewrite Htemps. by apply Hin2. }
  split; [|done].
  apply Forall_forall. intros r Hin.
  eapply Forall_forall in Hr; [|exact Hin]. split; [done|].
  by eapply Forall_forall in Ht.
Qed.

End Removals.

Lemma first_free_fresh X : Ex.first_free X ∉ X.
Proof. apply is_fresh. Qed.

Lemma second_input_never_removed_witness :
  exists w',
    main_with Ex.first_free 0 1 1 Ex.opts (World Ex.fs0 [] []) = Ok w'
    /\ Forall (fun r => r ∈ temps w' /\ r <> "transcriptome.map") (removed w')
    /\ is_Some (files w' !! "transcriptome.map").
Proof.
  eexists. split; [vm_compute; reflexivity|].
  apply (second_input_never_removed Ex.first_free first_free_fresh 0 1 1
           Ex.opts Ex.fs0 "transcriptome.map").
  - done.
  - by_compute.
  - vm_compute; reflexivity.
Defined.

(** The temporary files of that run: three were created, three removed. *)
Example removals_example :
  match main_with Ex.first_free 0 1 1 Ex.opts (World Ex.fs0 [] []) with
  | Ok w' => (temps w', removed w', files w' !! "out.map")
  | Raise _ => ([], [], None)
  end
  = (["0"; "1"; "0"], ["0"; "0"; "1"], Some [Ex.z0]).
Proof. by vm_compute. Qed.

(** ** The script and the function on contents *)

Lemma files_open_w name w k :
  files (open_w name w) !! k
  = if decide (name = k) then Some [] else files w !! k.
Proof. unfold open_w. simpl. apply lookup_insert. Qed.

Lemma files_writelines name ls w k :
  files (writelines name ls w) !! k
  = if decide (name = k) then (fun c => c ++ ls) <$> files w !! k
    else files w !! k.
Proof.
  unfold writelines. simpl. rewrite lookup_alter. by case_decide; subst.
Qed.

Lemma os_remove_Some name w c :
  files w !! name = Some c ->
  os_remove name w
  = Ok (World (delete name (files w)) (temps w) (removed w ++ [name])).
Proof. unfold os_remove. by intros ->. Qed.

Lemma open_r_Some name w c : files w !! name = Some c -> open_r name w = Ok c.
Proof. unfold open_r. by intros ->. Qed.

Section Contents.

Variable mkstemp : gset string -> string.
Hypothesis mkstemp_fresh : forall X, mkstemp X ∉ X.

Lemma mkstemp_ne (fs : gmap string (list line)) k :
  is_Some (fs !! k) -> mkstemp (dom fs) <> k.
Proof.
  intros Hk Heq. apply (mkstemp_fresh (dom fs)). rewrite Heq.
  by apply elem_of_dom.
Qed.

(** The loop on files does what [passes] does on contents. *)
Lemma driver_loop_passes m2 out f2 tmp mc hint bs st first_flag in1 ou1 w
    acc src :
  m2 <> out ->
  loop_inv m2 out f2 first_flag in1 ou1 w acc src ->
  match passes mc hint bs st src with
  | Ok (ps, last) =>
      exists ff in1' ou1' w',
        driver_loop mkstemp tmp mc hint out bs st first_flag in1 ou1 w
        = Ok (ff, in1', ou1', w')
        /\ loop_inv m2 out f2 ff in1' ou1' w'
             (acc ++ concat (p_final <$> ps)) last
  | Raise e =>
      driver_loop mkstemp tmp mc hint out bs st first_flag in1 ou1 w
      = Raise e
  end.
Proof.
  intros Hm2out. revert st first_flag in1 ou1 w acc src.
  induction bs as [|e|baza rest IH];
    intros st first_flag in1 ou1 w acc src Hinv.
  - simpl. exists first_flag, in1, ou1, w. split; [done|].
    by rewrite app_nil_r.
  - done.
  - destruct Hinv as (Hout & Hin1 & Hou1 & Hm2 & N1 & N2 & N3 & N4 & N5).
    cbn [passes driver_loop]. rewrite (open_r_Some in1 w src) by done.
    cbn [mbind result_bind].
    destruct (pass_chunks baza mc st (chunks hint src))
      as [[st' [fout final]]|e]; cbn [mbind result_bind]; [|done].
    set (w2 := writelines out final (writelines ou1 fout (open_w ou1 w))).
    assert (files w2 !! out = Some (acc ++ final)) as Hout2.
    { unfold w2. rewrite files_writelines, decide_True by done.
      rewrite files_writelines, decide_False by done.
      rewrite files_open_w, decide_False by done. by rewrite Hout. }
    assert (files w2 !! ou1 = Some fout) as Hou2.
    { unfold w2. rewrite files_writelines, decide_False by done.
      rewrite files_writelines, decide_True by done.
      by rewrite files_open_w, decide_True. }
    assert (forall k, k <> out -> k <> ou1 ->
                      files w2 !! k = files w !! k) as Hframe.
    { intros k K1 K2. unfold w2.
      rewrite files_writelines, decide_False by done.
      rewrite files_writelines, decide_False by done.
      by rewrite files_open_w, decide_False. }
    set (r := if first_flag then Ok w2 else os_remove in1 w2).
    assert (exists w3, r = Ok w3
              /\ files w3 !! out = Some (acc ++ final)
              /\ files w3 !! ou1 = Some fout
              /\ files w3 !! m2 = Some f2) as (w3 & -> & Hout3 & Hou3 & Hm3).
    { unfold r. destruct first_flag.
      - exists w2. repeat split; [done..|].
        by rewrite Hframe by (by apply not_eq_sym).
      - rewrite (os_remove_Some in1 w2 src)
          by (by rewrite Hframe by done).
        eexists. split; [done|]. simpl.
        rewrite !lookup_delete_ne by (by auto).
        repeat split; [done..|].
        by rewrite Hframe by (by apply not_eq_sym). }
    simpl. unfold give_me_temp_filename.
    set (ou2 := mkstemp (dom (files w3))).
    set (w4 := World (<[ou2 := []]> (files w3)) (temps w3 ++ [ou2])
                 (removed w3)).
    assert (ou2 <> out) as M1 by (apply mkstemp_ne; by rewrite Hout3).
    assert (ou2 <> ou1) as M2 by (apply mkstemp_ne; by rewrite Hou3).
    assert (ou2 <> m2) as M3 by (apply mkstemp_ne; by rewrite Hm3).
    assert (loop_inv m2 out f2 false ou1 ou2 w4 (acc ++ final) fout)
      as Hinv4.
    { unfold loop_inv, w4. cbn [files].
      split; [by rewrite lookup_insert_ne|].
      split; [by rewrite lookup_insert_ne|].
      split; [rewrite lookup_insert_eq; by eexists|].
      split; [by rewrite lookup_insert_ne|].
      repeat split; done. }
    specialize (IH st' false ou1 ou2 w4 (acc ++ final) fout Hinv4).
    destruct (passes mc hint rest st' fout) as [[ps last]|e];
      cbn [mbind result_bind]; [|done].
    destruct IH as (ff & in1' & ou1' & w' & Hloop & Hinv').
    exists ff, in1', ou1', w'. split; [done|].
    rewrite fmap_cons. cbn [concat p_final]. by rewrite app_assoc.
Qed.

(** The script writes to the output file what [run_with] computes from the
    contents of the two inputs, and leaves the second input as it is. *)
Lemma main_with_run limit size_buffer hint o fs m1 m2 out f1 f2 :
  map_1_filename o = Some m1 -> map_2_filename o = Some m2 ->
  output_filename o = Some out ->
  m1 <> EmptyString -> m2 <> EmptyString -> out <> EmptyString ->
  fs !! m1 = Some f1 -> fs !! m2 = Some f2 ->
  out <> m1 -> out <> m2 -> mkstemp (dom fs) <> out ->
  match run_with limit size_buffer hint (mismatches_column o) f1 f2 with
  | Ok lines =>
      exists w',
        main_with mkstemp limit size_buffer hint o (World fs [] []) = Ok w'
        /\ files w' !! out = Some lines
        /\ files w' !! m2 = Some f2
  | Raise e =>
      main_with mkstemp limit size_buffer hint o (World fs [] []) = Raise e
  end.
Proof.
  intros O1 O2 O3 E1 E2 E3 F1 F2 N1 N2 N3.
  set (t0 := mkstemp (dom fs)) in *.
  set (w1 := World (<[t0 := []]> fs) ([] ++ [t0]) []).
  set (mc := mismatches_column o - 1).
  assert (t0 <> m1) as T1 by (apply mkstemp_ne; by rewrite F1).
  assert (t0 <> m2) as T2 by (apply mkstemp_ne; by rewrite F2).
  assert (main_with mkstemp limit size_buffer hint o (World fs [] [])
          = '(first_flag, in1, ou1, w) ←
              driver_loop mkstemp (tmp_dir o) mc hint out
                (map2dict f1 mc limit size_buffer) init_pstate true m2 t0
                (open_w out w1);
            after_loop hint out first_flag in1 ou1 w) as ->.
  { unfold main_with. rewrite O1, O2, O3.
    replace (truthy (Some m1)) with true by (by destruct m1).
    replace (truthy (Some m2)) with true by (by destruct m2).
    replace (truthy (Some out)) with true by (by destruct out).
    cbn [andb negb]. unfold give_me_temp_filename. cbn [files temps removed].
    fold t0. fold w1. rewrite (open_r_Some m1 (open_w out w1) f1); [done|].
    rewrite files_open_w, decide_False by done.
    unfold w1. cbn [files]. by rewrite lookup_insert_ne. }
  assert (loop_inv m2 out f2 true m2 t0 (open_w out w1) [] f2) as Hinv0.
  { unfold loop_inv. rewrite !files_open_w.
    rewrite decide_True by done. rewrite !decide_False by done.
    unfold w1. cbn [files].
    rewrite lookup_insert_eq, lookup_insert_ne by done.
    repeat split; done. }
  pose proof (driver_loop_passes m2 out f2 (tmp_dir o) mc hint
                (map2dict f1 mc limit size_buffer) init_pstate true m2 t0
                (open_w out w1) [] f2 (not_eq_sym N2) Hinv0) as Hloop.
  unfold run_with, trace_with. fold mc.
  destruct (passes mc hint (map2dict f1 mc limit size_buffer) init_pstate f2)
    as [[ps last]|e]; cbn [mbind result_bind]; [|by rewrite Hloop].
  destruct Hloop as (ff & in1' & ou1' & w' & -> & Hinv).
  destruct Hinv as (Hout & Hin1 & [c Hou1] & Hm2 & I1 & I2 & I3 & I4 & I5).
  cbn [mbind result_bind app]. unfold after_loop.
  rewrite (os_remove_Some ou1' w' c) by done. cbn [mbind result_bind].
  set (w3 := World (delete ou1' (files w')) (temps w')
               (removed w' ++ [ou1'])).
  rewrite (open_r_Some in1' w3 last)
    by (unfold w3; cbn [files]; by rewrite lookup_delete_ne by done).
  cbn [mbind result_bind]. rewrite concat_chunks, assemble_eq.
  set (w4 := writelines out last w3).
  assert (files w4 !! out = Some (concat (p_final <$> ps) ++ last)) as Hout4.
  { unfold w4. rewrite files_writelines, decide_True by done.
    unfold w3. cbn [files]. rewrite lookup_delete_ne, Hout by done. done. }
  assert (forall k, k <> out -> k <> ou1' ->
                    files w4 !! k = files w' !! k) as Hframe.
  { intros k K1 K2. unfold w4.
    rewrite files_writelines, decide_False by done.
    unfold w3. cbn [files]. by rewrite lookup_delete_ne by done. }
  destruct ff; cbn [negb].
  - exists w4. split; [done|]. split; [done|].
    by rewrite Hframe by done.
  - rewrite (os_remove_Some in1' w4 last) by (by rewrite Hframe by done).
    eexists. split; [done|]. cbn [files].
    rewrite !lookup_delete_ne by (by auto).
    split; [done|]. by rewrite Hframe by done.
Qed.

Lemma run_with_empty limit size_buffer hint column map_2 :
  run_with limit size_buffer hint column [] map_2 = Ok map_2.
Proof.
  unfold run_with, trace_with, map2dict. simpl. by rewrite assemble_eq.
Qed.

(** C8.  If the first input file is empty, [map2dict] yields no dictionary
    and the script ends with a copy of the second input file in the output
    file; the second input file is as it was. *)
Theorem empty_first_file_copies_second
    limit size_buffer hint o fs m1 m2 out f2 :
  map_1_filename o = Some m1 -> map_2_filename o = Some m2 ->
  output_filename o = Some out ->
  m1 <> EmptyString -> m2 <> EmptyString -> out <> EmptyString ->
  fs !! m1 = Some [] -> fs !! m2 = Some f2 ->
  out <> m1 -> out <> m2 -> mkstemp (dom fs) <> out ->
  map2dict [] (mismatches_column o - 1) limit size_buffer = Stop
  /\ run_with limit size_buffer hint (mismatches_column o) [] f2 = Ok f2
  /\ exists w',
       main_with mkstemp limit size_buffer hint o (World fs [] []) = Ok w'
       /\ files w' !! out = Some f2
       /\ files w' !! m2 = Some f2.
Proof.
  intros O1 O2 O3 E1 E2 E3 F1 F2 N1 N2 N3.
  split; [done|]. split; [apply run_with_empty|].
  pose proof (main_with_run limit size_buffer hint o fs m1 m2 out [] f2
                O1 O2 O3 E1 E2 E3 F1 F2 N1 N2 N3) as Hmain.
  by rewrite run_with_empty in Hmain.
Qed.

End Contents.

Lemma empty_first_file_copies_second_witness :
  map2dict [] (mismatches_column Ex.opts - 1) 0 1 = Stop
  /\ run_with 0 1 1 (mismatches_column Ex.opts) [] [Ex.x1; Ex.z0]
     = Ok [Ex.x1; Ex.z0]
  /\ exists w',
       main_with Ex.first_free 0 1 1 Ex.opts (World Ex.fs_empty [] []) = Ok w'
       /\ files w' !! "out.map" = Some [Ex.x1; Ex.z0]
       /\ files w' !! "transcriptome.map" = Some [Ex.x1; Ex.z0].
Proof.
  apply (empty_first_file_copies_second Ex.first_free first_free_fresh 0 1 1
           Ex.opts Ex.fs_empty "genome.map" "transcriptome.map" "out.map"
           [Ex.x1; Ex.z0]).
  - reflexivity.
  - reflexivity.
  - reflexivity.
  - by_compute.
  - by_compute.
  - by_compute.
  - vm_compute; reflexivity.
  - vm_compute; reflexivity.
  - by_compute.
  - by_compute.
  - by_compute.
Defined.

(** ** Runs that end normally, and runs with one dictionary *)

Lemma for_lines_total baza mc st src :
  Forall (has_field mc) src -> exists r, for_lines baza mc st src = Ok r.
Proof.
  intros Hsrc. revert st. induction Hsrc as [|l src [f Hf] _ IH]; intros st.
  { by eexists. }
  simpl. rewrite step_eq, Hf.
  assert (exists st1 d,
    (if decide (lastread st = Some (read_name l)) then Ok (st, dest_of st)
     else match baza !! read_name l with
          | Some ref =>
              if (mismatches f <=? ref)%nat
              then Ok (PState (Some (read_name l)) true true, ToFinal)
              else Ok (PState (Some (read_name l)) false (lastfinal st),
                       Dropped)
          | None => Ok (PState (Some (read_name l)) true false, ToResidue)
          end) = Ok (st1, d)) as (st1 & d & ->).
  { case_decide; [by eauto|]. destruct (baza !! read_name l) as [ref|];
      [destruct (_ <=? _)%nat|]; by eauto. }
  simpl. destruct (IH st1) as [[st2 bufs] ->]. by eexists.
Qed.

Lemma passes_total mc hint bs st in1 :
  completes bs = true -> Forall (has_field mc) in1 ->
  exists r, passes mc hint bs st in1 = Ok r.
Proof.
  revert st in1. induction bs as [| |baza rest IH]; intros st in1; simpl.
  - by eexists.
  - done.
  - intros Hc Hin1. rewrite pass_chunks_lines.
    destruct (for_lines_total baza mc st in1 Hin1) as [[st' [fout final]] Hp].
    rewrite Hp. simpl.
    apply for_lines_sublist in Hp as [Hsub _]. simpl in Hsub.
    destruct (IH st' fout Hc) as [[ps last] ->]; [|by eexists].
    apply Forall_forall. intros l Hl.
    eapply Forall_forall in Hin1; [done|]. by eapply elem_of_sublist.
Qed.

(** On files whose lines all have the mismatch field the run ends
    normally. *)
Lemma run_with_total limit size_buffer hint column map_1 map_2 :
  Forall (has_field (column - 1)) map_1 ->
  Forall (has_field (column - 1)) map_2 ->
  exists out, run_with limit size_buffer hint column map_1 map_2 = Ok out.
Proof.
  intros H1 H2. unfold run_with, trace_with.
  destruct (passes_total (column - 1) hint
              (map2dict map_1 (column - 1) limit size_buffer)
              init_pstate map_2) as [[ps last] ->]; [|done|by eexists].
  by apply map2dict_completes.
Qed.

Lemma new_reads_length lr ps : (length (new_reads lr ps).1 <= length ps)%nat.
Proof.
  revert lr. induction ps as [|p ps IH]; intros lr; simpl; [done|].
  destruct (decide (lr = Some p.1)).
  - specialize (IH lr). lia.
  - specialize (IH (Some p.1)). destruct (new_reads (Some p.1) ps).
    simpl in *. lia.
Qed.

Lemma giveRC_all_length column du ps :
  giveRC_all column du = Ok ps -> length ps = length du.
Proof.
  intros H%giveRC_all_names. unfold names in H.
  by rewrite <- (length_fmap fst ps), H, length_fmap.
Qed.





(** * Further properties of the script *)

(** ** Chunk sizes and thresholds *)

(** X1.  The size hint with which a pass, and the final copy, read their
    source does not show in the output: the state and the routing are
    carried across chunks. *)
Theorem lines_hint_irrelevant
    limit size_buffer hint hint' column map_1 map_2 :
  run_with limit size_buffer hint column map_1 map_2
  = run_with limit size_buffer hint' column map_1 map_2.
Proof.
  unfold run_with, trace_with.
  rewrite (passes_hint _ hint hint').
  destruct (passes _ _ _ _ _) as [[ps last]|e]; simpl; [|done].
  by rewrite !assemble_eq.
Qed.

(** A threshold the first file cannot exceed: the generator reads the whole
    file and yields, at its end, one dictionary of all recorded pairs, or
    nothing when there is none; it fails when a line lacks the field. *)
Lemma map2dict_loop_whole column limit dus lr base :
  Z.of_nat (length base + length (concat dus)) <= limit ->
  map2dict_loop column limit dus lr base
  = match giveRC_all column (concat dus) with
    | Raise e => Fail e
    | Ok ps =>
        match base ++ (new_reads lr ps).1 with
        | [] => Stop
        | p :: b => Yield (dict (p :: b)) Stop
        end
    end.
Proof.
  revert lr base. induction dus as [|du dus IH]; intros lr base; simpl.
  { intros _. rewrite app_nil_r. by destruct base. }
  rewrite length_app. intros Hlen. rewrite giveRC_all_app.
  destruct (giveRC_all column du) as [du'|] eqn:Hdu; simpl; [|done].
  pose proof (new_reads_length lr du') as Hnr.
  rewrite (giveRC_all_length _ _ _ Hdu) in Hnr.
  destruct (new_reads lr du') as [di lr'] eqn:Hnew. simpl in Hnr.
  replace (limit <? Z.of_nat (length (base ++ di))) with false
    by (symmetry; apply Z.ltb_ge; rewrite length_app; lia).
  rewrite IH by (rewrite length_app; lia).
  destruct (giveRC_all column (concat dus)) as [ps|]; simpl; [|done].
  rewrite new_reads_app, Hnew. destruct (new_reads lr' ps) as [di' lr''].
  simpl. by rewrite app_assoc.
Qed.

(** X2.  Thresholds that are at least the number of lines of the first
    file are never exceeded, and then neither the threshold nor any of the
    chunk sizes shows in the result of the run: same output, or same
    exception. *)
Theorem threshold_not_exceeded_irrelevant
    limit1 limit2 sb1 sb2 hint1 hint2 column map_1 map_2 :
  Z.of_nat (length map_1) <= limit1 ->
  Z.of_nat (length map_1) <= limit2 ->
  run_with limit1 sb1 hint1 column map_1 map_2
  = run_with limit2 sb2 hint2 column map_1 map_2.
Proof.
  intros H1 H2. rewrite (lines_hint_irrelevant limit1 sb1 hint1 hint2).
  unfold run_with, trace_with, map2dict.
  rewrite !map2dict_loop_whole by (by rewrite concat_chunks).
  by rewrite !concat_chunks.
Qed.

Lemma threshold_not_exceeded_irrelevant_witness :
  run_with 5 40 1 8 Ex.genome [Ex.c0; Ex.z0; Ex.b0; Ex.a0]
  = run_with default_limit_counts_reads default_size_buffer
      default_lines_hint 8 Ex.genome [Ex.c0; Ex.z0; Ex.b0; Ex.a0].
Proof.
  apply (threshold_not_exceeded_irrelevant 5 default_limit_counts_reads
           40 default_size_buffer 1 default_lines_hint 8 Ex.genome
           [Ex.c0; Ex.z0; Ex.b0; Ex.a0]); by vm_compute.
Defined.

(** ** The builder *)

Lemma giveRC_all_Raise column du e :
  giveRC_all column du = Raise e -> e = IndexError.
Proof.
  induction du as [|d du IH]; simpl; [done|].
  rewrite giveRC_fields. destruct (Py.index (fields d) column); simpl.
  - destruct (giveRC_all column du); simpl; [done|].
    intros [= <-]. by apply IH.
  - by intros [= <-].
Qed.

Lemma map2dict_loop_fails column limit dus lr base :
  completes (map2dict_loop column limit dus lr base) = true
  -> Forall (has_field column) (concat dus).
Proof.
  revert lr base. induction dus as [|du dus IH]; intros lr base; simpl.
  { constructor. }
  destruct (giveRC_all column du) as [du'|] eqn:Hdu; [|done].
  destruct (new_reads lr du') as [di lr'].
  intros Hc. apply Forall_app. split; [by eapply giveRC_all_has_field|].
  destruct (limit <? _); simpl in Hc; by eapply IH.
Qed.

(** X3.  [map2dict] reads the mismatch field of every line of the first
    file, also of the lines that continue a read: it runs to its end
    exactly when every line has the field, whatever the threshold and the
    chunk size. *)
Theorem map2dict_completes_iff a_file column limit size_buffer :
  completes (map2dict a_file column limit size_buffer) = true
  <-> Forall (has_field column) a_file.
Proof.
  split; [|apply map2dict_completes].
  unfold map2dict. intros H%map2dict_loop_fails.
  by rewrite concat_chunks in H.
Qed.

(** X4.  Looking a read up in the dictionaries, in the order they are
    yielded, gives the mismatch count of its first record in the first
    file, and nothing for a read the file does not have: with consecutive
    records the threshold and the chunk size only decide where the
    dictionaries are cut. *)
Theorem dictionaries_hold_first_counts a_file column limit size_buffer n :
  contiguity (names a_file) -> Forall (has_field column) a_file ->
  lookup_first (yielded (map2dict a_file column limit size_buffer)) n
  = first_mismatches column a_file n
  /\ (n ∉ names a_file ->
      lookup_first (yielded (map2dict a_file column limit size_buffer)) n
      = None).
Proof.
  intros Hcont Hfld.
  pose proof (lookup_first_yielded a_file column limit size_buffer n Hcont
                (map2dict_completes _ _ _ _ Hfld)) as Heq.
  split; [done|]. intros Hn. rewrite Heq.
  unfold first_mismatches. rewrite filter_none; [done|].
  intros l Hl Hnamed. apply Hn. apply list_elem_of_fmap. by exists l.
Qed.

Lemma dictionaries_hold_first_counts_witness :
  lookup_first (yielded (map2dict Ex.genome 7 0 40)) "a"
  = first_mismatches 7 Ex.genome "a"
  /\ ("a" ∉ names Ex.genome ->
      lookup_first (yielded (map2dict Ex.genome 7 0 40)) "a" = None).
Proof.
  apply (dictionaries_hold_first_counts Ex.genome 7 0 40 "a").
  - apply contiguous_contiguity. by_compute.
  - by_compute.
Defined.

(** ** The state the passes share *)

Lemma passes_carried mc hint bs st src n :
  completes bs = true ->
  lastread st = Some n -> dest_of st = ToResidue ->
  Forall (named n) src ->
  exists ps,
    passes mc hint bs st src = Ok (ps, src)
    /\ Forall (fun p => p_fout p = src /\ p_final p = []) ps
    /\ concat (p_final <$> ps) ++ src = src.
Proof.
  intros Hc Hlr Hd Hsrc.
  induction bs as [| |baza rest IH]; simpl in *.
  - by exists [].
  - done.
  - rewrite pass_chunks_lines, (for_lines_carried _ _ _ n), Hd by done.
    simpl. destruct (IH Hc) as (ps & -> & Hps & Hcat). simpl.
    eexists. split; [done|]. split; [by constructor|done].
Qed.

(** X5.  The three state variables are set before the loop over the
    dictionaries and never reset.  So when a pass is entered with the
    carried read marked "residue" and its source holds lines of that read
    only, the pass, and every later pass, writes the source to its residue
    without looking the read up: whatever the dictionaries hold, these
    lines end in the output. *)
Theorem carried_group_passes_through mc hint bs st src n :
  completes bs = true ->
  lastread st = Some n -> lastappended st = true -> lastfinal st = false ->
  Forall (named n) src ->
  exists ps,
    passes mc hint bs st src = Ok (ps, src)
    /\ Forall (fun p => p_fout p = src /\ p_final p = []) ps
    /\ concat (p_final <$> ps) ++ src = src.
Proof.
  intros Hc Hlr Ha Hf Hsrc. apply (passes_carried mc hint bs st src n);
    [done..| |done].
  unfold dest_of. by rewrite Ha, Hf.
Qed.

Lemma carried_group_passes_through_witness :
  exists ps,
    passes 7 1 (map2dict [Ex.x0] 7 0 1) (PState (Some "x") true false)
      [Ex.x1]
    = Ok (ps, [Ex.x1])
    /\ Forall (fun p => p_fout p = [Ex.x1] /\ p_final p = []) ps
    /\ concat (p_final <$> ps) ++ [Ex.x1] = [Ex.x1].
Proof.
  apply (carried_group_passes_through 7 1 (map2dict [Ex.x0] 7 0 1)
           (PState (Some "x") true false) [Ex.x1] "x").
  - by vm_compute.
  - done.
  - done.
  - done.
  - by_compute.
Defined.

(** ** One pass *)

(** X6.  A pass entered with no carried read, as the first pass is, splits
    a source whose reads are consecutive by the keep rule: the lines whose
    read the dictionary does not hold go to the residue, the lines of the
    reads it holds with a count at least that of their first record go to
    the final output, and the other lines go nowhere. *)
Theorem fresh_pass_splits_by_rule baza mc st src st' data data_final :
  contiguity (names src) -> lastread st = None ->
  for_lines baza mc st src = Ok (st', (data, data_final)) ->
  data = filter (undecided baza) src
  /\ data_final = filter (kept baza mc src) src
  /\ (forall l, l ∈ src -> ~ undecided baza l -> ~ kept baza mc src l ->
                (l ∉ data) /\ (l ∉ data_final)).
Proof.
  intros Hcont%contiguity_contiguous Hlr Hrun.
  eapply for_lines_clean in Hrun as [Hd Hf]; [|done|].
  2: { intros u [Hu _]%carried_Some. by rewrite Hlr in Hu. }
  simpl in Hd, Hf. subst. split; [done|]. split; [done|].
  intros l _ Hu Hk. split; intros [? _]%list_elem_of_filter; done.
Qed.

Lemma fresh_pass_splits_by_rule_witness :
  [Ex.r3; Ex.r3'] = filter (undecided ({[ "r1" := 1%nat ]}))
                      [Ex.r3; Ex.r3'; Ex.r1; Ex.r1']
  /\ [] = filter (kept ({[ "r1" := 1%nat ]}) 7 [Ex.r3; Ex.r3'; Ex.r1; Ex.r1'])
            [Ex.r3; Ex.r3'; Ex.r1; Ex.r1']
  /\ (forall l, l ∈ [Ex.r3; Ex.r3'; Ex.r1; Ex.r1'] ->
                ~ undecided ({[ "r1" := 1%nat ]}) l ->
                ~ kept ({[ "r1" := 1%nat ]}) 7
                    [Ex.r3; Ex.r3'; Ex.r1; Ex.r1'] l ->
                (l ∉ [Ex.r3; Ex.r3']) /\ (l ∉ [])).
Proof.
  apply (fresh_pass_splits_by_rule ({[ "r1" := 1%nat ]}) 7 init_pstate
           [Ex.r3; Ex.r3'; Ex.r1; Ex.r1']
           (PState (Some "r1") false false)).
  - apply contiguous_contiguity. by_compute.
  - done.
  - by vm_compute.
Defined.

(** ** What a run keeps and when it fails *)








Lemma map2dict_loop_failure column limit dus lr base e :
  failure (map2dict_loop column limit dus lr base) = Some e ->
  e = IndexError.
Proof.
  revert lr base. induction dus as [|du dus IH]; intros lr base; simpl.
  { by destruct base. }
  destruct (giveRC_all column du) as [du'|e'] eqn:Hdu; simpl.
  - destruct (new_reads lr du') as [di lr'].
    destruct (limit <? _); simpl; apply IH.
  - intros [= <-]. by eapply giveRC_all_Raise.
Qed.

Lemma failure_completes bs : failure bs = None <-> completes bs = true.
Proof. induction bs; simpl; [done|split; done|done]. Qed.

Lemma passes_Raise mc hint bs st in1 e :
  passes mc hint bs st in1 = Raise e ->
  failure bs = Some e
  \/ (e = IndexError
      /\ exists b l, b ∈ yielded bs /\ l ∈ in1
                     /\ is_Some (b !! read_name l) /\ ~ has_field mc l).
Proof.
  revert st in1. induction bs as [|e'|baza rest IH]; intros st in1; simpl.
  - done.
  - intros [= <-]. by left.
  - rewrite pass_chunks_lines. intros H.
    apply bind_Raise in H as [H|([st' [fout final]] & Hpass & H)].
    + right. apply for_lines_Raise in H as (-> & l & Hl & Hb & Hf).
      split; [done|]. exists baza, l. split; [left|done].
    + apply bind_Raise in H as [H|([ps last] & _ & H)]; [|done].
      apply IH in H as [H|(-> & b & l & Hb & Hl & Hbl & Hf)]; [by left|].
      right. split; [done|]. exists b, l. split; [by right|].
      split; [|done].
      apply for_lines_sublist in Hpass as [Hsub _].
      by eapply elem_of_sublist.
Qed.

(** X9.  A run on file contents fails with [IndexError] and nothing else,
    and only when a line of the first file lacks the mismatch field, or a
    line of the second file lacks it whose read name occurs in the first
    file; on files whose lines all have the field it ends normally. *)
Theorem run_fails_only_on_short_lines
    limit size_buffer hint column map_1 map_2 :
  (forall e,
     run_with limit size_buffer hint column map_1 map_2 = Raise e ->
     e = IndexError
     /\ (Exists (fun l => ~ has_field (column - 1) l) map_1
         \/ Exists (fun l => read_name l ∈ names map_1
                             /\ ~ has_field (column - 1) l) map_2))
  /\ (Forall (has_field (column - 1)) map_1 ->
      Forall (has_field (column - 1)) map_2 ->
      exists out, run_with limit size_buffer hint column map_1 map_2 = Ok out).
Proof.
  split; [|apply run_with_total].
  intros e. unfold run_with, trace_with. intros H.
  apply bind_Raise in H as [H|([ps last] & _ & H)]; [|done].
  apply passes_Raise in H as [H|(-> & b & l & Hb & Hl & Hbl & Hf)].
  - split; [by eapply map2dict_loop_failure|]. left.
    apply not_Forall_Exists; [apply _|]. intros Hall.
    apply (map2dict_completes _ _ limit size_buffer), failure_completes
      in Hall. by rewrite Hall in H.
  - split; [done|]. right. apply Exists_exists. exists l.
    split; [done|]. split; [|done]. by eapply yielded_names.
Qed.

Lemma run_fails_only_on_short_lines_witness :
  run_with 0 1 1 8 [Ex.r1_ref] [Ex.short; Ex.r1] = Ok [Ex.short]
  /\ run_with 0 1 1 8 [mk_line ["s"]] [Ex.short; Ex.r1] = Raise IndexError
  /\ exists out,
       run_with 0 1 1 8 [Ex.r1_ref; Ex.r2_ref] [Ex.r3; Ex.r1; Ex.r2] = Ok out.
Proof.
  split; [by vm_compute|]. split; [by vm_compute|].
  apply (run_fails_only_on_short_lines 0 1 1 8 [Ex.r1_ref; Ex.r2_ref]
           [Ex.r3; Ex.r1; Ex.r2]); by_compute.
Defined.

(** ** The script and the files *)




Section Frame.

Variable mkstemp : gset string -> string.
Hypothesis mkstemp_fresh : forall X, mkstemp X ∉ X.




End Frame.


(** ** The exceptions of the script *)


Section Exceptions.

Variable mkstemp : gset string -> string.
Hypothesis mkstemp_fresh : forall X, mkstemp X ∉ X.





End Exceptions.


(** ** The read the previous pass ended with *)

Lemma for_lines_lastread baza mc st src st' bufs :
  for_lines baza mc st src = Ok (st', bufs) ->
  lastread st' = last_name (lastread st) (names src).
Proof.
  revert st st' bufs. induction src as [|l src IH]; intros st st' bufs.
  { by intros [= <- _]. }
  intros (st1 & d & bufs' & Hstep & Hrest & _)%for_lines_cons.
  apply step_dest in Hstep as [Hlr _]. simpl. rewrite <- Hlr. by eapply IH.
Qed.

Lemma last_name_last lr ns n : last ns = Some n -> last_name lr ns = Some n.
Proof.
  revert lr. induction ns as [|m ns IH]; intros lr; [done|].
  simpl. destruct ns as [|m' ns]; [by intros [= ->]|]. apply IH.
Qed.

(** X13.  The price of the shared state.  Let the reads of the second file
    be consecutive, let its last read be absent from the first dictionary
    and let every other read be a key of it.  Then the first pass leaves
    that read alone in the residue, and no later dictionary is consulted
    for it: its records are in the output whatever count the later
    dictionaries hold for it. *)
Theorem last_read_escapes_later_dictionaries
    mc hint baza rest src n ps last' :
  contiguity (names src) ->
  last (names src) = Some n -> baza !! n = None ->
  (forall l, l ∈ src -> read_name l <> n -> is_Some (baza !! read_name l)) ->
  passes mc hint (Yield baza rest) init_pstate src = Ok (ps, last') ->
  last' = filter (named n) src
  /\ concat (p_final <$> ps) ++ last'
     = filter (kept baza mc src) src ++ filter (named n) src
  /\ filter (named n) (concat (p_final <$> ps) ++ last')
     = filter (named n) src.
Proof.
  intros Hcont%contiguity_contiguous Hlast Hn Hothers.
  intros (st' & fout & final & ps' & Hpass & Hrest & ->)%passes_Yield.
  pose proof (for_lines_lastread _ _ _ _ _ _ Hpass) as Hlr.
  rewrite (last_name_last _ _ n Hlast) in Hlr.
  pose proof (state_after_pass _ _ _ _ _ _ n Hcont Hpass Hlr) as Hd.
  eapply for_lines_clean in Hpass as [Hfout Hfinal]; [|done|].
  2: { by intros u [? _]%carried_Some. }
  simpl in Hfout, Hfinal, Hd.
  assert (fout = filter (named n) src) as Hfout'.
  { rewrite Hfout. apply filter_ext_in. intros l Hl. unfold undecided, named.
    split.
    - intros Hu. destruct (decide (read_name l = n)) as [|Hne]; [done|].
      destruct (Hothers l Hl Hne) as [? Hsome]. by rewrite Hu in Hsome.
    - by intros ->. }
  assert (n ∈ names fout) as Hin.
  { rewrite Hfout'. apply last_Some in Hlast as [ns' Hns].
    assert (n ∈ names src) as Hnsrc.
    { rewrite Hns. apply elem_of_app. right. left. }
    apply list_elem_of_fmap in Hnsrc as (l & -> & Hl).
    apply list_elem_of_fmap. exists l. split; [done|].
    by apply list_elem_of_filter. }
  apply passes_yielded in Hrest as Hc. destruct Hc as [Hc _].
  destruct (passes_carried mc hint rest st' fout n Hc Hlr (Hd Hin))
    as (ps0 & Hps0 & Hall & Hcat).
  { rewrite Hfout'. apply Forall_forall. intros l.
    by intros [? _]%list_elem_of_filter. }
  rewrite Hrest in Hps0. injection Hps0 as <- <-.
  split; [done|]. rewrite fmap_cons. cbn [concat p_final].
  rewrite <- app_assoc, Hcat. split; [by rewrite Hfinal, Hfout'|].
  rewrite filter_app, Hfout', list_filter_filter.
  rewrite (filter_none _ final); [simpl|].
  - apply filter_ext_in. intros l _. tauto.
  - rewrite Hfinal. intros l [Hk _]%list_elem_of_filter Hnamed.
    unfold kept, named in *. by rewrite Hnamed, Hn in Hk.
Qed.

Lemma last_read_escapes_later_dictionaries_witness :
  exists ps last',
    passes 7 1 (Yield {[ "a" := O ]} (Yield {[ "x" := O ]} Stop))
      init_pstate [Ex.a0; Ex.x1] = Ok (ps, last')
    /\ last' = filter (named "x") [Ex.a0; Ex.x1]
    /\ concat (p_final <$> ps) ++ last'
       = filter (kept {[ "a" := O ]} 7 [Ex.a0; Ex.x1]) [Ex.a0; Ex.x1]
         ++ filter (named "x") [Ex.a0; Ex.x1]
    /\ filter (named "x") (concat (p_final <$> ps) ++ last')
       = filter (named "x") [Ex.a0; Ex.x1].
Proof.
  eexists. eexists. split; [vm_compute; reflexivity|].
  eapply (last_read_escapes_later_dictionaries 7 1 {[ "a" := O ]}
            (Yield {[ "x" := O ]} Stop) [Ex.a0; Ex.x1] "x").
  - apply contiguous_contiguity. by_compute.
  - by vm_compute.
  - by vm_compute.
  - intros l Hl Hne.
    apply elem_of_cons in Hl as [->|Hl]; [by_compute|].
    apply elem_of_cons in Hl as [->|Hl]; [by destruct Hne|].
    by apply elem_of_nil in Hl.
  - vm_compute; reflexivity.
Defined.

(** ** What the threshold bounds *)












(** ** A first file whose reads are not consecutive *)

Lemma fold_insert_last (base : list (string * nat)) (m : gmap string nat) n :
  fold_left (fun m p => <[p.1 := p.2]> m) base m !! n
  = match last (filter (fun p : string * nat => p.1 = n) base) with
    | Some p => Some p.2
    | None => m !! n
    end.
Proof.
  revert m. induction base as [|p base IH]; intros m; simpl; [done|].
  rewrite IH, filter_cons. destruct (decide (p.1 = n)) as [Hp|Hp].
  - rewrite last_cons. destruct (last _); [done|].
    by rewrite <- Hp, lookup_insert_eq.
  - destruct (last _); [done|]. by rewrite lookup_insert_ne.
Qed.

Lemma new_reads_group_heads column lr (f : list line) :
  (new_reads lr
     ((fun d => (read_name d,
                 default EmptyString (Py.index (fields d) column))) <$> f)).1
  = (fun d => (read_name d,
               mismatches (default EmptyString (Py.index (fields d) column))))
    <$> group_heads lr f.
Proof.
  revert lr. induction f as [|d f IH]; intros lr; csimpl; [done|].
  destruct (decide (lr = Some (read_name d))); [apply IH|].
  specialize (IH (Some (read_name d))).
  destruct (new_reads (Some (read_name d)) _). csimpl in *. by rewrite IH.
Qed.

Lemma group_heads_sublist lr f : group_heads lr f `sublist_of` f.
Proof.
  revert lr. induction f as [|d f IH]; intros lr; simpl; [done|].
  destruct (decide (lr = Some (read_name d)));
    [by apply sublist_cons|by apply sublist_skip].
Qed.

Lemma filter_fmap_named {B} (h : line -> B) (f : list line) n :
  filter (fun p : string * B => p.1 = n) ((fun d => (read_name d, h d)) <$> f)
  = (fun d => (read_name d, h d)) <$> filter (named n) f.
Proof.
  induction f as [|d f IH]; [done|].
  rewrite fmap_cons, !filter_cons, IH. simpl.
  destruct (decide (read_name d = n)), (decide (named n d)); done.
Qed.

(** X16.  When the records of a read come in several separate runs of the
    first file, each run is recorded, and [dict] keeps the last pair of a
    key: with one dictionary (a threshold the file does not exceed) the
    count held for a read is that of the record that opens its last run,
    not that of its first record. *)
Theorem later_group_overrides a_file column limit size_buffer n :
  Forall (has_field column) a_file ->
  Z.of_nat (length a_file) <= limit ->
  lookup_first (yielded (map2dict a_file column limit size_buffer)) n
  = last_group_mismatches column a_file n.
Proof.
  intros Hf Hlen. unfold map2dict.
  rewrite map2dict_loop_whole by (by rewrite concat_chunks).
  rewrite concat_chunks, (giveRC_all_total _ _ Hf).
  rewrite new_reads_group_heads. unfold last_group_mismatches.
  set (h := fun d : line =>
              mismatches (default EmptyString (Py.index (fields d) column))).
  assert (dict ((fun d => (read_name d, h d)) <$> group_heads None a_file) !! n
          = l ← last (filter (named n) (group_heads None a_file));
            fld ← Py.index (fields l) column; Some (mismatches fld)) as Hd.
  { unfold dict. rewrite fold_insert_last, lookup_empty, filter_fmap_named.
    rewrite fmap_last.
    destruct (last (filter (named n) (group_heads None a_file)))
      as [l|] eqn:Hl; [|done].
    simpl. apply last_Some_elem_of, list_elem_of_filter in Hl as [_ Hl].
    assert (has_field column l) as [fld Hfld].
    { eapply Forall_forall; [exact Hf|].
      eapply elem_of_sublist; [exact Hl|apply group_heads_sublist]. }
    unfold h. by rewrite Hfld. }
  simpl. destruct (_ <$> group_heads None a_file) as [|p b] eqn:Hgh.
  - apply fmap_nil_inv in Hgh. by rewrite Hgh.
  - simpl. rewrite Hd. by destruct (_ ≫= _).
Qed.

Lemma later_group_overrides_witness :
  lookup_first
    (yielded (map2dict [Ex.x1; Ex.a0; Ex.x0] 7 default_limit_counts_reads
                default_size_buffer)) "x"
  = last_group_mismatches 7 [Ex.x1; Ex.a0; Ex.x0] "x".
Proof.
  apply (later_group_overrides [Ex.x1; Ex.a0; Ex.x0] 7
           default_limit_counts_reads default_size_buffer "x").
  - by_compute.
  - by vm_compute.
Defined.

(** The read x has one mismatch in its first record and none in the record
    of its second run: the dictionary holds none. *)
Example later_group_example :
  first_mismatches 7 [Ex.x1; Ex.a0; Ex.x0] "x" = Some 1%nat
  /\ last_group_mismatches 7 [Ex.x1; Ex.a0; Ex.x0] "x" = Some 0%nat
  /\ run_with default_limit_counts_reads default_size_buffer
       default_lines_hint 8 [Ex.x1; Ex.a0; Ex.x0] [Ex.x1]
     = Ok [].
Proof. by vm_compute. Qed.

(** ** Filtering twice *)






(** ** Line terminators *)



Section Relabel.

(** A change of the lines that leaves their fields as they are. *)
Variable g : line -> line.
Hypothesis g_fields : forall l, fields (g l) = fields l.






End Relabel.


